(** * Leads manager: CSV codec, record store, query engine and pager

    A shallow embedding of the class [LeadsManager] of
    [src/preview/js/leads-management.js] and the properties of its data
    pipeline: [parseCSV], [parseCSVLine] and [exportToCSV] (the codec),
    [loadStoredLeads], [saveLeads], [importLeads] and [deleteLead] (the
    store), [filterLeads] and [sortTable] (the query engine),
    [renderTable] and [updatePagination] (the pager), [updateStats],
    [handleFileUpload], [showPreview] and [escapeHtml].

    Conventions of the embedding.
    - A JavaScript string is the list of its UTF-16 code units ([jsstr]).
    - A lead is an ordinary JavaScript object whose property values are
      strings, as [parseCSV] builds them; it is kept as the association
      list of its own properties in the order of their creation.
      [Object.keys] lists the names that are array indices first, in
      ascending order, and then the other names in creation order
      ([keys]); an assignment to [__proto__] reaches the accessor
      inherited from [Object.prototype] and creates no property ([set]);
      where the code reads a property under a name that comes from the
      data, a name the lead does not have may be found on
      [Object.prototype] ([fieldText]).
    - [undefined] is [None].
    - Numbers are integers ([Z]).
    - Code that can throw returns a [completion]; the manager state is
      threaded explicitly, so that what was assigned before a throw stays
      assigned.
    - The manager is followed as long as its collection is an array of
      leads.  A stored or staged text that [JSON.parse] reads as some
      other iterable value (a string, or an array that holds something
      else than objects whose properties are strings) takes the manager
      outside of what [state] describes; the completion [Outside] marks
      this.
    - What the browser supplies and ECMAScript leaves to the implementation
      or to locale tables (case mapping, date parsing, the local time
      zone, rounding to double, the text of a built-in function, JSON,
      the storage quota) is the class [Host]; what the user enters (the
      filter controls, the answer to the confirmation dialog, the staged
      import) is an argument of the operation.  The page and the browser
      are those the manager is written for: the elements it looks up
      exist, unless an operation says otherwise, the selectors it uses
      are known to the browser and the [bootstrap] library is loaded. *)

From Stdlib Require Import ZArith NArith List String Ascii Bool Lia.
From Stdlib Require Import Permutation Sorted.
From stdpp Require Import base tactics option list.

Import ListNotations.
Local Open Scope Z_scope.

(** ** JavaScript strings *)

Module JS.

(** A string is its sequence of UTF-16 code units. *)
Abbreviation jsstr := (list N).

(** The code units of an ASCII literal of the source. *)
Definition str (s : string) : jsstr :=
  List.map N_of_ascii (list_ascii_of_string s).

Definition QUOTE : N := 34%N.
Definition COMMA : N := 44%N.
Definition NEWLINE : N := 10%N.
Definition SLASH : N := 47%N.
Definition DASH : N := 45%N.

(** ECMAScript [WhiteSpace] and [LineTerminator] code points, the set that
    [String.prototype.trim] and [parseInt] strip. *)
Definition isWhiteSpace (c : N) : bool :=
  ((9 <=? c) && (c <=? 13) || (c =? 32) || (c =? 160) || (c =? 5760)
   || (8192 <=? c) && (c <=? 8202) || (c =? 8232) || (c =? 8233)
   || (c =? 8239) || (c =? 8287) || (c =? 12288) || (c =? 65279))%N.

Fixpoint trimStart (s : jsstr) : jsstr :=
  match s with
  | [] => []
  | c :: s' => if isWhiteSpace c then trimStart s' else s
  end.

Definition trimEnd (s : jsstr) : jsstr := rev (trimStart (rev s)).

(** [s.trim()] *)
Definition trim (s : jsstr) : jsstr := trimEnd (trimStart s).

(** Truthiness of a string: only the empty string is falsy. *)
Definition truthy (s : jsstr) : bool :=
  match s with [] => false | _ :: _ => true end.

(** [s.split(sep)] for a one-character separator: never the empty array. *)
Fixpoint split (sep : N) (s : jsstr) : list jsstr :=
  match s with
  | [] => [[]]
  | c :: s' =>
      if (c =? sep)%N then [] :: split sep s'
      else match split sep s' with
           | [] => [[c]]
           | w :: ws => (c :: w) :: ws
           end
  end.

(** [parts.join(sep)] *)
Fixpoint join (sep : jsstr) (parts : list jsstr) : jsstr :=
  match parts with
  | [] => []
  | [p] => p
  | p :: rest => p ++ sep ++ join sep rest
  end.

(** [s.replace] of every double quote by the empty string. *)
Definition removeQuotes (s : jsstr) : jsstr :=
  List.filter (fun c => negb (c =? QUOTE)%N) s.

(** [s.replace] of every double quote by two double quotes. *)
Definition doubleQuotes (s : jsstr) : jsstr :=
  flat_map (fun c => if (c =? QUOTE)%N then [QUOTE; QUOTE] else [c]) s.

Fixpoint startsWith (p s : jsstr) : bool :=
  match p, s with
  | [], _ => true
  | _ :: _, [] => false
  | a :: p', b :: s' => (a =? b)%N && startsWith p' s'
  end.

(** [s.includes(p)] *)
Fixpoint includes (s p : jsstr) : bool :=
  startsWith p s || match s with [] => false | _ :: s' => includes s' p end.

(** [a < b] on two strings: lexicographic on code units. *)
Fixpoint ltStr (a b : jsstr) : bool :=
  match a, b with
  | _, [] => false
  | [], _ :: _ => true
  | x :: a', y :: b' => (x <? y)%N || (x =? y)%N && ltStr a' b'
  end.

(** *** [parseInt(s)] with no radix

    The result is the mathematical integer read ([None] is [NaN]); the
    rounding to a double is the host's. *)
Definition digitValue (radix : N) (c : N) : option N :=
  let v := (if (48 <=? c) && (c <=? 57) then Some (c - 48)
            else if (97 <=? c) && (c <=? 122) then Some (c - 87)
            else if (65 <=? c) && (c <=? 90) then Some (c - 55)
            else None)%N in
  match v with
  | Some d => if (d <? radix)%N then Some d else None
  | None => None
  end.

(** The value of the longest prefix of digits; [None] when it is empty. *)
Fixpoint digits (radix : N) (acc : option N) (s : jsstr) : option N :=
  match s with
  | [] => acc
  | c :: s' =>
      match digitValue radix c with
      | Some d => digits radix (Some (match acc with
                                      | Some a => a * radix + d
                                      | None => d
                                      end)%N) s'
      | None => acc
      end
  end.

Definition parseInt (s : jsstr) : option Z :=
  let s := trimStart s in
  let '(sign, s) :=
    match s with
    | c :: s' => if (c =? 45)%N then (-1, s')
                 else if (c =? 43)%N then (1, s') else (1, s)
    | [] => (1, s)
    end in
  let '(radix, s) :=
    match s with
    | z :: x :: s' =>
        if (z =? 48)%N && ((x =? 120) || (x =? 88))%N then (16%N, s')
        else (10%N, s)
    | _ => (10%N, s)
    end in
  match digits radix None s with
  | Some n => Some (sign * Z.of_N n)
  | None => None
  end.

End JS.
Import JS.

(** ** Arrays *)

(** [l.sort(compare)].  ECMAScript requires the sort to be stable and, for a
    consistent comparator, fixes the result; this is the insertion sort
    that puts each element before the first one it does not follow.  With
    an inconsistent comparator the order is left to the implementation. *)
Fixpoint insertSorted {A} (compare : A -> A -> Z) (x : A) (l : list A)
    : list A :=
  match l with
  | [] => [x]
  | y :: l' =>
      if 0 <? compare x y then y :: insertSorted compare x l'
      else x :: y :: l'
  end.

Fixpoint sort {A} (compare : A -> A -> Z) (l : list A) : list A :=
  match l with
  | [] => []
  | x :: l' => insertSorted compare x (sort compare l')
  end.

(** [l.slice(start, end)] *)
Definition slice {A} (l : list A) (start end_ : Z) : list A :=
  let len := Z.of_nat (length l) in
  let k := if start <? 0 then Z.max (len + start) 0 else Z.min start len in
  let fin := if end_ <? 0 then Z.max (len + end_) 0 else Z.min end_ len in
  take (Z.to_nat (Z.max (fin - k) 0)) (drop (Z.to_nat k) l).

(** ** Records *)

(** A lead: the name and the value of its own properties, in the order
    in which they were created. *)
Abbreviation record := (list (jsstr * jsstr)).

(** The name of the accessor property every lead inherits from
    [Object.prototype]. *)
Definition PROTO : jsstr := str "__proto__".

(** [lead[name]] for a name [Object.prototype] does not have: the own
    property, or [undefined]. *)
Fixpoint get (name : jsstr) (r : record) : option jsstr :=
  match r with
  | [] => None
  | (k, v) :: r' => if decide (k = name) then Some v else get name r'
  end.

(** Writing the own property [name]: an existing property keeps its
    place, a new one is created last. *)
Fixpoint assign (name v : jsstr) (r : record) : record :=
  match r with
  | [] => [(name, v)]
  | (k, w) :: r' =>
      if decide (k = name) then (k, v) :: r' else (k, w) :: assign name v r'
  end.

(** [row[name] = v] for a string [v].  On a lead without an own property
    [__proto__] the name reaches the inherited accessor, whose setter
    ignores a value that is neither an object nor [null]: nothing is
    created. *)
Definition set (name v : jsstr) (r : record) : record :=
  if decide (name = PROTO) then
    match get PROTO r with
    | Some _ => assign name v r
    | None => r
    end
  else assign name v r.

(** The number read from a run of decimal digits. *)
Fixpoint decimalValue (acc : N) (s : jsstr) : option N :=
  match s with
  | [] => Some acc
  | c :: s' =>
      if ((48 <=? c) && (c <=? 57))%N
      then decimalValue (acc * 10 + (c - 48))%N s'
      else None
  end.

(** The array index a property name stands for: the name is the decimal
    numeral, without a sign or a leading zero, of an integer below
    [2^32 - 1]. *)
Definition arrayIndex (name : jsstr) : option N :=
  match name with
  | [] => None
  | c :: rest =>
      if (c =? 48)%N && match rest with [] => false | _ :: _ => true end
      then None
      else match decimalValue 0 name with
           | Some n => if (n <? 4294967295)%N then Some n else None
           | None => None
           end
  end.

Definition isIndex (name : jsstr) : bool :=
  match arrayIndex name with Some _ => true | None => false end.

Definition indexOf (name : jsstr) : Z :=
  match arrayIndex name with Some n => Z.of_N n | None => 0 end.

(** The order in which an object lists its own property names, given
    the order of their creation: the array indices in ascending order,
    then the other names as created. *)
Definition propertyOrder (names : list jsstr) : list jsstr :=
  sort (fun a b => indexOf a - indexOf b) (List.filter isIndex names)
  ++ List.filter (fun name => negb (isIndex name)) names.

(** [Object.keys(lead)] *)
Definition keys (r : record) : list jsstr := propertyOrder (List.map fst r).

(** [x || ''] for [x] a string or [undefined]. *)
Definition orEmpty (x : option jsstr) : jsstr :=
  match x with
  | Some v => if truthy v then v else []
  | None => []
  end.

(** ** CSV codec: reading *)

(** The state of the scanner of [parseCSVLine]. *)
Record scanner := Scanner {
  result : list jsstr;
  current : jsstr;
  inQuotes : bool
}.

(** One turn of the [for] loop of [parseCSVLine]. *)
Definition scanChar (s : scanner) (char : N) : scanner :=
  if (char =? QUOTE)%N then
    Scanner (result s) (current s) (negb (inQuotes s))
  else if (char =? COMMA)%N && negb (inQuotes s) then
    Scanner (result s ++ [trim (current s)]) [] (inQuotes s)
  else
    Scanner (result s) (current s ++ [char]) (inQuotes s).

Definition parseCSVLine (line : jsstr) : list jsstr :=
  let s := fold_left scanChar line (Scanner [] [] false) in
  result s ++ [trim (current s)].

(** [values[index] || ''] *)
Definition valueAt (values : list jsstr) (index : nat) : jsstr :=
  orEmpty (values !! index).

(** The [headers.forEach] of [parseCSV]: fills [row] from property
    number [index] on. *)
Fixpoint fillRow (headers : list jsstr) (index : nat) (values : list jsstr)
    (row : record) : record :=
  match headers with
  | [] => row
  | header :: rest =>
      fillRow rest (S index) values (set header (valueAt values index) row)
  end.

(** One turn of the [for] loop of [parseCSV] over the data lines. *)
Definition parseRow (headers : list jsstr) (data : list record)
    (line : jsstr) : list record :=
  let values := parseCSVLine line in
  if decide (length values = length headers)
  then data ++ [fillRow headers 0 values []]
  else data.

(** [csv.split(newline).filter(line => line.trim())] *)
Definition nonBlankLines (csv : jsstr) : list jsstr :=
  List.filter (fun line => truthy (trim line)) (split NEWLINE csv).

(** The header names read from the first line. *)
Definition headerNames (header : jsstr) : list jsstr :=
  List.map (fun h => removeQuotes (trim h)) (split COMMA header).

Definition parseCSV (csv : jsstr) : list record :=
  let lines := nonBlankLines csv in
  if (length lines <? 2)%nat then []
  else
    let headers := headerNames (hd [] lines) in
    fold_left (parseRow headers) (tl lines) [].

(** ** The host *)

(** What [JSON.parse] makes of a text found in the store or staged for
    import.  The manager itself only writes arrays of leads, that is,
    of objects all of whose properties are strings; with a string or an
    array of other things as its collection it is not followed. *)
Inductive parsed :=
  | ParseFailure                    (* throws a SyntaxError *)
  | ParsedLeads (l : list record)   (* an array of leads *)
  | ParsedOther                     (* a value that is not iterable:
                                       [null], a number, a boolean, an
                                       object *)
  | ParsedString                    (* a string *)
  | ParsedForeign.                  (* an array that holds something
                                       else than leads *)

(** The parts of the JavaScript host the manager calls and this
    development does not fix. *)
Class Host := {
  (** [s.toLowerCase()] *)
  toLowerCase : jsstr -> jsstr;
  (** [Date.parse(s)]: the time value, [None] for [NaN]. *)
  Date_parse : jsstr -> option Z;
  (** [toDateString()] of a valid date, in the local time zone. *)
  toDateString : Z -> jsstr;
  (** The Number [parseInt] returns for the integer it read (the nearest
      double, up to the latitude ECMAScript gives for long numerals), as
      an integer that keeps the order of Numbers. *)
  toDouble : Z -> Z;
  (** [f.toString()] for the built-in function whose name is given. *)
  Function_toString : jsstr -> jsstr;
  JSON_parse : jsstr -> parsed;
  JSON_stringify : list record -> jsstr;
  (** Whether [localStorage.setItem] accepts the text (else it throws). *)
  setItem_accepts : jsstr -> bool
}.

(** ** What a lead inherits *)

(** The properties of [Object.prototype]: for a method, the name of the
    function it holds. *)
Definition builtin (name : jsstr) : option jsstr :=
  if decide (name = str "constructor") then Some (str "Object")
  else if bool_decide
            (name ∈ [str "hasOwnProperty"; str "isPrototypeOf";
                     str "propertyIsEnumerable"; str "toLocaleString";
                     str "toString"; str "valueOf";
                     str "__defineGetter__"; str "__defineSetter__";
                     str "__lookupGetter__"; str "__lookupSetter__"])
       then Some name
  else None.

(** [(lead[header] || '').toString()] for a name that comes from the
    data: the own property; without one, what [Object.prototype] has
    under that name, a function or, for [__proto__], [Object.prototype]
    itself; else the empty string. *)
Definition fieldText `{Host} (header : jsstr) (lead : record) : jsstr :=
  match get header lead with
  | Some v => v
  | None =>
      if decide (header = PROTO) then str "[object Object]"
      else match builtin header with
           | Some f => Function_toString f
           | None => []
           end
  end.

(** ** CSV codec: writing *)

(** The field written by [exportToCSV] for [lead[header]]. *)
Definition quoteField `{Host} (lead : record) (header : jsstr) : jsstr :=
  [QUOTE] ++ doubleQuotes (fieldText header lead) ++ [QUOTE].

(** The text built by [exportToCSV]; [None] when there is nothing to
    export (the function only notifies). *)
Definition exportToCSV `{Host} (filteredLeads : list record)
    : option jsstr :=
  match filteredLeads with
  | [] => None
  | first :: _ =>
      let headers := keys first in
      Some (join [NEWLINE]
              (join [COMMA] headers ::
               List.map (fun lead => join [COMMA] (List.map (quoteField lead) headers))
                   filteredLeads))
  end.

(** ** Manager state *)

Inductive direction := asc | desc.

Inductive error := TypeError | SyntaxError | QuotaExceededError.

(** How a piece of code ends.  [Outside]: the manager has come to hold a
    collection that is not an array of leads, and is not followed further
    (see [parsed]). *)
Inductive completion (A : Type) :=
  | Normal (a : A)
  | Throw (e : error)
  | Outside.
Arguments Normal {A} a.
Arguments Throw {A} e.
Arguments Outside {A}.

(** What [renderTable] and [updatePagination] put on the page. *)
Record display := Display {
  rows : list record;     (* the rows of [#leads-table tbody] *)
  showing : Z * Z;        (* [#showing-count]: start to end *)
  total : Z               (* [#total-count] *)
}.

(** The fields of [LeadsManager], the [leadsData] slot of [localStorage]
    and the rendered page. *)
Record state := State {
  leads : list record;
  filteredLeads : list record;
  currentPage : Z;
  pageSize : Z;
  sortColumn : jsstr;
  sortDirection : direction;
  leadsData : option jsstr;
  page : display
}.

Definition with_leads (l : list record) (st : state) : state :=
  State l (filteredLeads st) (currentPage st) (pageSize st) (sortColumn st)
        (sortDirection st) (leadsData st) (page st).

Definition with_filteredLeads (l : list record) (st : state) : state :=
  State (leads st) l (currentPage st) (pageSize st) (sortColumn st)
        (sortDirection st) (leadsData st) (page st).

Definition with_currentPage (p : Z) (st : state) : state :=
  State (leads st) (filteredLeads st) p (pageSize st) (sortColumn st)
        (sortDirection st) (leadsData st) (page st).

Definition with_sort (column : jsstr) (d : direction) (st : state) : state :=
  State (leads st) (filteredLeads st) (currentPage st) (pageSize st) column
        d (leadsData st) (page st).

Definition with_leadsData (blob : option jsstr) (st : state) : state :=
  State (leads st) (filteredLeads st) (currentPage st) (pageSize st)
        (sortColumn st) (sortDirection st) blob (page st).

Definition with_page (d : display) (st : state) : state :=
  State (leads st) (filteredLeads st) (currentPage st) (pageSize st)
        (sortColumn st) (sortDirection st) (leadsData st) d.

(** Computations over the state that may throw. *)
Definition M (A : Type) : Type := state -> completion A * state.

Definition ret {A} (a : A) : M A := fun st => (Normal a, st).

Definition throw {A} (e : error) : M A := fun st => (Throw e, st).

Definition outside {A} : M A := fun st => (Outside, st).

Definition bind {A B} (m : M A) (k : A -> M B) : M B :=
  fun st =>
    match m st with
    | (Normal a, st') => k a st'
    | (Throw e, st') => (Throw e, st')
    | (Outside, st') => (Outside, st')
    end.

(** [try { body } catch (e) { handler }] *)
Definition tryCatch {A} (body : M A) (handler : error -> M A) : M A :=
  fun st =>
    match body st with
    | (Normal a, st') => (Normal a, st')
    | (Throw e, st') => handler e st'
    | (Outside, st') => (Outside, st')
    end.

Definition modify (f : state -> state) : M unit := fun st => (Normal tt, f st).

(** Lifts a throwing expression that does not touch the state. *)
Definition lift {A} (c : completion A) : M A := fun st => (c, st).

(** Evaluates an expression over the fields. *)
Definition reads {A} (f : state -> A) : M A := fun st => (Normal (f st), st).

Notation "'let*' x := m 'in' k" := (bind m (fun x => k))
  (at level 10, x name, m at level 100, k at level 200).
Notation "m ;;; k" := (bind m (fun _ => k))
  (at level 100, k at level 200, right associativity).

(** The state and the completion a computation ends with. *)
Definition final {A} (r : completion A * state) : state := snd r.
Definition outcome {A} (r : completion A * state) : completion A := fst r.

(** ** Pager *)

(** The rows [renderTable] draws. *)
Definition pageLeads (st : state) : list record :=
  let start := (currentPage st - 1) * pageSize st in
  let end_ := start + pageSize st in
  slice (filteredLeads st) start end_.

Definition updatePagination (st : state) : state :=
  let totalCount := Z.of_nat (length (filteredLeads st)) in
  let start := (currentPage st - 1) * pageSize st + 1 in
  let end_ := Z.min (start + pageSize st - 1) totalCount in
  with_page (Display (rows (page st)) (start, end_) totalCount) st.

(** [renderTable] on a page that has the table (without it nothing is
    drawn). *)
Definition renderTable (st : state) : state :=
  updatePagination
    (with_page (Display (pageLeads st) (showing (page st)) (total (page st))) st).

(** ** Stats *)

(** What [updateStats] writes in the four stat cards. *)
Record stats := Stats {
  totalLeads : nat;
  newLeads : nat;
  attemptLeads : nat;
  customerLeads : nat
}.

(** [leads.filter(lead => lead.Stage === stage).length] *)
Definition countStage (stage : jsstr) (leads : list record) : nat :=
  length (List.filter
            (fun lead => bool_decide (get (str "Stage") lead = Some stage))
            leads).

Definition updateStats (st : state) : stats :=
  Stats (length (leads st))
        (countStage (str "NEW") (leads st))
        (countStage (str "ATTEMPT") (leads st))
        (countStage (str "CUSTOMER") (leads st)).

(** ** Record store *)

Section WithHost.
Context `{Host}.

Definition saveLeads : M unit :=
  tryCatch
    (fun st =>
       let text := JSON_stringify (leads st) in
       if setItem_accepts text
       then (Normal tt, with_leadsData (Some text) st)
       else (Throw QuotaExceededError, st))
    (fun _ => ret tt).

Definition loadStoredLeads : M unit :=
  fun st =>
    match leadsData st with
    | Some stored =>
        if truthy stored then
          tryCatch
            (match JSON_parse stored with
             | ParseFailure => throw SyntaxError
             | ParsedLeads l =>
                 modify (with_leads l) ;;;
                 modify (with_filteredLeads l)
             | ParsedOther => throw TypeError   (* the spread throws *)
             | ParsedString | ParsedForeign => outside
             end)
            (fun _ =>
               modify (with_leads []) ;;;
               modify (with_filteredLeads []))
            st
        else (Normal tt, st)
    | None => (Normal tt, st)
    end.

(** ** Query engine: filter *)

(** The values of the search box and of the four filter controls; [None]
    when the page has no such element. *)
Record controls := Controls {
  search_leads : option jsstr;
  filter_stage : option jsstr;
  filter_source : option jsstr;
  filter_responsible : option jsstr;
  filter_date : option jsstr
}.

(** [new Date(s).toDateString()] *)
Definition dateString (s : jsstr) : jsstr :=
  match Date_parse s with
  | Some t => toDateString t
  | None => str "Invalid Date"
  end.

(** [s.split('/').reverse().join('-')] *)
Definition isoOrder (s : jsstr) : jsstr :=
  join [DASH] (rev (split SLASH s)).

(** [x?.toLowerCase().includes(term)] *)
Definition lowerIncludes (x : option jsstr) (term : jsstr) : bool :=
  match x with
  | Some v => includes (toLowerCase v) term
  | None => false
  end.

(** [x?.toString().includes(term)] *)
Definition textIncludes (x : option jsstr) (term : jsstr) : bool :=
  match x with
  | Some v => includes v term
  | None => false
  end.

(** [!wanted || x === wanted] *)
Definition matchesExact (wanted : jsstr) (x : option jsstr) : bool :=
  negb (truthy wanted) || bool_decide (x = Some wanted).

(** The callback [filterLeads] passes to [this.leads.filter]. *)
Definition leadMatches (searchTerm stageFilter sourceFilter responsibleFilter
    dateFilter : jsstr) (lead : record) : completion bool :=
  let matchesSearch :=
    negb (truthy searchTerm)
    || lowerIncludes (get (str "Lead Name") lead) searchTerm
    || lowerIncludes (get (str "First Name") lead) searchTerm
    || textIncludes (get (str "ID") lead) searchTerm in
  let matchesStage := matchesExact stageFilter (get (str "Stage") lead) in
  let matchesSource := matchesExact sourceFilter (get (str "Source") lead) in
  let matchesResponsible :=
    matchesExact responsibleFilter (get (str "Responsible") lead) in
  match
    (if truthy dateFilter then
       match get (str "Created") lead with
       | None => Throw TypeError      (* [undefined.split] *)
       | Some created =>
           Normal (bool_decide
                     (dateString (isoOrder created) = dateString dateFilter))
       end
     else Normal true)
  with
  | Normal matchesDate =>
      Normal (matchesSearch && matchesStage && matchesSource
              && matchesResponsible && matchesDate)
  | Throw e => Throw e
  | Outside => Outside
  end.

(** [l.filter(f)] for a callback that may throw: the first throw ends it. *)
Fixpoint filterE {A} (f : A -> completion bool) (l : list A)
    : completion (list A) :=
  match l with
  | [] => Normal []
  | x :: l' =>
      match f x with
      | Normal b =>
          match filterE f l' with
          | Normal kept => Normal (if b then x :: kept else kept)
          | Throw e => Throw e
          | Outside => Outside
          end
      | Throw e => Throw e
      | Outside => Outside
      end
  end.

(** The callback for the values read from the controls:
    [document.getElementById(id)?.value || ''], the search term in lower
    case. *)
Definition keeps (c : controls) : record -> completion bool :=
  let searchTerm := orEmpty (toLowerCase <$> search_leads c) in
  let stageFilter := orEmpty (filter_stage c) in
  let sourceFilter := orEmpty (filter_source c) in
  let responsibleFilter := orEmpty (filter_responsible c) in
  let dateFilter := orEmpty (filter_date c) in
  leadMatches searchTerm stageFilter sourceFilter responsibleFilter dateFilter.

Definition filterLeads (c : controls) : M unit :=
  let* st := (fun st => (Normal st, st)) in
  let* kept := lift (filterE (keeps c) (leads st)) in
  modify (with_filteredLeads kept) ;;;
  modify (with_currentPage 1) ;;;
  modify renderTable.

(** ** Query engine: sort *)

(** [columnMap[column]], [None] for [undefined].  The keys are those of
    the object literal; names inherited from [Object.prototype] are not
    taken for keys. *)
Definition columnMap (column : jsstr) : option jsstr :=
  if decide (column = str "sort-id") then Some (str "ID")
  else if decide (column = str "sort-name") then Some (str "Lead Name")
  else if decide (column = str "sort-stage") then Some (str "Stage")
  else if decide (column = str "sort-source") then Some (str "Source")
  else if decide (column = str "sort-responsible") then Some (str "Responsible")
  else if decide (column = str "sort-created") then Some (str "Created")
  else if decide (column = str "sort-followup") then Some (str "Follow Up")
  else None.

(** The values the comparator of [sortTable] compares. *)
Inductive sortVal :=
  | VStr (s : jsstr)
  | VNum (n : Z)
  | VDate (t : option Z).     (* [None]: an invalid date *)

(** [a < b]; the comparator only compares two values of one kind, and a
    comparison with an invalid date is false. *)
Definition lessThan (a b : sortVal) : bool :=
  match a, b with
  | VStr x, VStr y => ltStr x y
  | VNum x, VNum y => x <? y
  | VDate (Some x), VDate (Some y) => x <? y
  | _, _ => false
  end.

Definition isDateColumn (actualColumn : jsstr) : bool :=
  bool_decide (actualColumn = str "Created")
  || bool_decide (actualColumn = str "Follow Up").

(** [aVal] (or [bVal]) as the comparator has it before comparing. *)
Definition sortValue (actualColumn : jsstr) (a : record) : sortVal :=
  let aVal := orEmpty (get actualColumn a) in
  if bool_decide (actualColumn = str "ID") then
    VNum (match parseInt aVal with Some n => toDouble n | None => 0 end)
  else if isDateColumn actualColumn then
    VDate (Date_parse (isoOrder aVal))
  else VStr aVal.

(** The comparator [sortTable] passes to [sort]. *)
Definition compareLeads (actualColumn : jsstr) (d : direction)
    (a b : record) : Z :=
  let aVal := sortValue actualColumn a in
  let bVal := sortValue actualColumn b in
  if lessThan aVal bVal then match d with asc => -1 | desc => 1 end
  else if lessThan bVal aVal then match d with asc => 1 | desc => -1 end
  else 0.

(** [d === 'asc' ? 'desc' : 'asc'] *)
Definition toggle (d : direction) : direction :=
  match d with asc => desc | desc => asc end.

Definition sortTable (column : jsstr) (st : state) : state :=
  let st :=
    if decide (sortColumn st = column)
    then with_sort (sortColumn st) (toggle (sortDirection st)) st
    else with_sort column asc st in
  match columnMap column with
  | None => st
  | Some actualColumn =>
      renderTable
        (with_filteredLeads
           (sort (compareLeads actualColumn (sortDirection st))
                 (filteredLeads st)) st)
  end.

(** ** Record store: import and delete *)

(** The running state of the import loop. *)
Record tally := Tally {
  merged : list record;
  importedCount : Z;
  skippedCount : Z
}.

(** [existing.ID === lead.ID] *)
Definition sameID (lead existing : record) : bool :=
  bool_decide (get (str "ID") existing = get (str "ID") lead).

(** The callback of [newLeads.forEach] in [importLeads]. *)
Definition importOne (skipDuplicates : bool) (t : tally) (lead : record)
    : tally :=
  if skipDuplicates && existsb (sameID lead) (merged t)
  then Tally (merged t) (importedCount t) (skippedCount t + 1)
  else Tally (merged t ++ [lead]) (importedCount t + 1) (skippedCount t).

(** [newLeads.forEach(...)] on [this.leads]. *)
Definition importLoop (skipDuplicates : bool) (leads newLeads : list record)
    : tally :=
  fold_left (importOne skipDuplicates) newLeads (Tally leads 0 0).

(** What [importLeads] tells the user. *)
Inductive importReport :=
  | NothingStaged                         (* no button or no staged data *)
  | Imported (importedCount skippedCount : Z)
  | ImportError.

(** [importLeads], for the [data-full-data] attribute of the import
    button ([None] when the button or the attribute is missing) and the
    state of the check box.  What follows the last [renderTable] (the
    modal, the notification, the form) only touches the page. *)
Definition importLeads (c : controls) (fullData : option jsstr)
    (skipDuplicates : bool) : M importReport :=
  match fullData with
  | None => ret NothingStaged
  | Some fullData =>
      if negb (truthy fullData) then ret NothingStaged
      else
        tryCatch
          (let* newLeads := lift (match JSON_parse fullData with
                                  | ParseFailure => Throw SyntaxError
                                  | ParsedLeads l => Normal l
                                  | ParsedOther | ParsedString =>
                                      Throw TypeError   (* no [forEach] *)
                                  | ParsedForeign => Outside
                                  end) in
           let* st := (fun st => (Normal st, st)) in
           let t := importLoop skipDuplicates (leads st) newLeads in
           modify (with_leads (merged t)) ;;;
           saveLeads ;;;
           filterLeads c ;;;
           reads updateStats ;;;
           modify renderTable ;;;
           ret (Imported (importedCount t) (skippedCount t)))
          (fun _ => ret ImportError)
  end.

(** [lead.ID !== id] *)
Definition differentID (id : option jsstr) (lead : record) : bool :=
  negb (bool_decide (get (str "ID") lead = id)).

(** [deleteLead(id)], [confirmed] being the answer to the dialog. *)
Definition deleteLead (c : controls) (confirmed : bool) (id : option jsstr)
    : M unit :=
  if confirmed then
    modify (fun st =>
              with_leads
                (List.filter (differentID id) (leads st)) st) ;;;
    saveLeads ;;;
    filterLeads c ;;;
    reads updateStats ;;;
    ret tt
  else ret tt.

(** [new LeadsManager()] over a store holding [blob]: the field
    initialisers, then [init]. *)
Definition fresh (blob : option jsstr) : state :=
  State [] [] 1 10 [] asc blob (Display [] (0, 0) 0).

(** [bindEvents] registers the listeners that call the operations below
    (in a browser that knows the selectors it uses); it reads and writes no
    field. *)
Definition bindEvents : M unit := ret tt.

Definition init : M unit :=
  bindEvents ;;;
  loadStoredLeads ;;;
  modify renderTable ;;;
  reads updateStats ;;;
  ret tt.

(** What the user can have the manager do once it is built. *)
Inductive action :=
  | Filter (c : controls)
  | Sort (column : jsstr)
  | Import (c : controls) (fullData : option jsstr) (skipDuplicates : bool)
  | Delete (c : controls) (confirmed : bool) (id : option jsstr).

Definition perform (st : state) (a : action) : state :=
  match a with
  | Filter c => final (filterLeads c st)
  | Sort column => sortTable column st
  | Import c fullData skipDuplicates =>
      final (importLeads c fullData skipDuplicates st)
  | Delete c confirmed id => final (deleteLead c confirmed id st)
  end.

(** The state after building the manager over [blob] and a run of
    actions; an operation that does not end normally leaves the fields as
    it had them when it stopped. *)
Definition session (blob : option jsstr) (actions : list action) : state :=
  fold_left perform actions (final (init (fresh blob))).

End WithHost.

(** ** A sample host

    Enough of a host to run the manager on concrete inputs: ASCII case
    mapping, the ISO date-only format of ECMAScript ([YYYY-MM-DD], read as
    UTC midnight; anything else is an invalid date), integers kept exact,
    the usual text of a built-in function, and a JSON codec that writes
    leads and reads back only the empty array, [null] and the array that
    holds [null]. *)
Module Sample.

Definition lowerChar (c : N) : N :=
  if ((65 <=? c) && (c <=? 90))%N then (c + 32)%N else c.

Definition digit (c : N) : option Z :=
  if ((48 <=? c) && (c <=? 57))%N then Some (Z.of_N c - 48) else None.

(** The number read from a run of decimal digits. *)
Fixpoint number (acc : Z) (s : jsstr) : option Z :=
  match s with
  | [] => Some acc
  | c :: s' =>
      match digit c with
      | Some d => number (acc * 10 + d) s'
      | None => None
      end
  end.

Definition isLeap (y : Z) : bool :=
  ((y mod 4 =? 0) && negb (y mod 100 =? 0)) || (y mod 400 =? 0).

Definition daysInMonth (y m : Z) : Z :=
  if m =? 2 then (if isLeap y then 29 else 28)
  else if (m =? 4) || (m =? 6) || (m =? 9) || (m =? 11) then 30
  else 31.

(** Days from 1970-01-01 to the given day of the proleptic Gregorian
    calendar. *)
Definition daysFromCivil (y m d : Z) : Z :=
  let y := if m <=? 2 then y - 1 else y in
  let era := y / 400 in
  let yoe := y - era * 400 in
  let doy := (153 * (if 2 <? m then m - 3 else m + 9) + 2) / 5 + d - 1 in
  let doe := yoe * 365 + yoe / 4 - yoe / 100 + doy in
  era * 146097 + doe - 719468.

Definition parseIsoDate (s : jsstr) : option Z :=
  match s with
  | [y1; y2; y3; y4; d1; m1; m2; d2; a1; a2] =>
      if ((d1 =? DASH) && (d2 =? DASH))%N then
        match number 0 [y1; y2; y3; y4], number 0 [m1; m2], number 0 [a1; a2] with
        | Some y, Some m, Some d =>
            if (1 <=? m) && (m <=? 12) && (1 <=? d) && (d <=? daysInMonth y m)
            then Some (daysFromCivil y m d * 86400000)
            else None
        | _, _, _ => None
        end
      else None
  | _ => None
  end.

(** A non-negative integer in decimal. *)
Fixpoint decimal (fuel : nat) (n : Z) (acc : jsstr) : jsstr :=
  match fuel with
  | O => acc
  | S fuel' =>
      let acc := Z.to_N (48 + n mod 10) :: acc in
      if n <? 10 then acc else decimal fuel' (n / 10) acc
  end.

(** The day of a time value, as text. *)
Definition dayText (t : Z) : jsstr :=
  let day := t / 86400000 in
  if day <? 0 then DASH :: decimal 20 (- day) [] else decimal 20 day [].

Definition quoted (s : jsstr) : jsstr :=
  [QUOTE] ++ flat_map (fun c => if ((c =? QUOTE) || (c =? 92))%N
                                then [92%N; c] else [c]) s ++ [QUOTE].

Definition stringifyLead (r : record) : jsstr :=
  str "{" ++ join [COMMA]
               (List.map (fun k => quoted k ++ str ":"
                                   ++ quoted (match get k r with
                                              | Some v => v
                                              | None => []
                                              end))
                  (keys r))
          ++ str "}".

Definition stringify (l : list record) : jsstr :=
  str "[" ++ join [COMMA] (List.map stringifyLead l) ++ str "]".

Definition parse (s : jsstr) : parsed :=
  if bool_decide (trim s = str "[]") then ParsedLeads []
  else if bool_decide (trim s = str "null") then ParsedOther
  else if bool_decide (trim s = str "[null]") then ParsedForeign
  else ParseFailure.

Definition nativeCode (f : jsstr) : jsstr :=
  str "function " ++ f ++ str "() { [native code] }".

#[export] Instance host : Host := {|
  toLowerCase := List.map lowerChar;
  Date_parse := parseIsoDate;
  toDateString := dayText;
  toDouble := fun n => n;
  Function_toString := nativeCode;
  JSON_parse := parse;
  JSON_stringify := stringify;
  setItem_accepts := fun _ => true
|}.

End Sample.

(** * Vocabulary of the properties *)

(** The record [r] with its properties in the order [hs], an absent one
    read as the empty string. *)
Definition reorder (hs : list jsstr) (r : record) : record :=
  List.map (fun h => (h, orEmpty (get h r))) hs.

(** A field name the header line carries unchanged: no white space
    around it, no comma, double quote or newline in it. *)
Definition plainName (h : jsstr) : Prop :=
  trim h = h
  /\ Forall (fun c => c <> COMMA /\ c <> QUOTE /\ c <> NEWLINE) h.

(** Field names whose header line is not blank: there is a name, and a
    single name is not empty. *)
Definition visibleNames (hs : list jsstr) : Prop :=
  hs <> [] /\ hs <> [[]].

(** The same object: the same names, listed in the same order, with the
    same values. *)
Definition sameObject (out r : record) : Prop :=
  keys out = keys r /\ forall name, get name out = get name r.

(** A field value a data line carries unchanged: no white space around
    it, no double quote or newline in it. *)
Definition plainValue (v : jsstr) : Prop :=
  trim v = v /\ Forall (fun c => c <> QUOTE /\ c <> NEWLINE) v.

Definition plainValues (r : record) : Prop :=
  Forall (fun kv => plainValue (snd kv)) r.

(** A computation that leaves a manager on page 1 on page 1. *)
Definition staysOnFirstPage {A} (m : M A) : Prop :=
  forall st, currentPage st = 1 -> currentPage (final (m st)) = 1.

(** [out] is [l] stably sorted by [compare]: the same elements, none
    before one it compares greater than, and, for each element of [l],
    the elements that compare equal to it in the order they had. *)
Definition stableSortOf {A} (compare : A -> A -> Z) (l out : list A) : Prop :=
  Permutation l out
  /\ StronglySorted (fun a b => compare a b <= 0) out
  /\ forall x, In x l ->
       List.filter (fun y => compare x y =? 0) out
       = List.filter (fun y => compare x y =? 0) l.

(** Two values the comparison orders: of one kind, no invalid date. *)
Definition comparable (u v : sortVal) : Prop :=
  match u, v with
  | VStr _, VStr _ | VNum _, VNum _ | VDate (Some _), VDate (Some _) => True
  | _, _ => False
  end.

(** The leads whose value in the column the comparison orders: all of
    them, but for a date column those with a date that parses. *)
Definition sortable `{Host} (actualColumn : jsstr) (a : record) : Prop :=
  sortValue actualColumn a <> VDate None.

(** For a date column, every lead of the View has a date that parses. *)
Definition datesParse `{Host} (actualColumn : jsstr) (view : list record)
    : Prop :=
  isDateColumn actualColumn = true ->
  Forall (fun a =>
            Date_parse (isoOrder (orEmpty (get actualColumn a))) <> None) view.

(** ** The order of a column, as the sort is described

    Numbers for [ID], dates for [Created] and [Follow Up], the code-unit
    order of strings for the other columns. *)

(** The number an [ID] stands for: the integer [parseInt] reads from it,
    0 when it reads none. *)
Definition idNumber `{Host} (r : record) : Z :=
  match parseInt (orEmpty (get (str "ID") r)) with
  | Some n => toDouble n
  | None => 0
  end.

(** The date a lead has in a date column, read from its [DD/MM/YYYY]
    text; [None] when the text gives no date. *)
Definition dateOf `{Host} (actualColumn : jsstr) (r : record) : option Z :=
  Date_parse (isoOrder (orEmpty (get actualColumn r))).

(** [a] comes strictly before [b] in the ascending order of the column. *)
Definition before `{Host} (actualColumn : jsstr) (a b : record) : bool :=
  if decide (actualColumn = str "ID") then idNumber a <? idNumber b
  else if decide (actualColumn = str "Created"
                  \/ actualColumn = str "Follow Up") then
    match dateOf actualColumn a, dateOf actualColumn b with
    | Some t, Some u => t <? u
    | _, _ => false
    end
  else ltStr (orEmpty (get actualColumn a)) (orEmpty (get actualColumn b)).




(** * Further methods *)

(** [escapeHtml(text)]: the text is set as the [textContent] of a fresh
    [div] and read back as its [innerHTML], that is, serialised as a text
    node: the ampersand, the no-break space and the two angle brackets
    are written as character references. *)
Definition escapeChar (c : N) : jsstr :=
  if (c =? 38)%N then str "&amp;"
  else if (c =? 160)%N then str "&nbsp;"
  else if (c =? 60)%N then str "&lt;"
  else if (c =? 62)%N then str "&gt;"
  else [c].

Definition escapeHtml (text : jsstr) : jsstr := flat_map escapeChar text.

(** The markup of [showPreview], for what it writes between the [th]
    tags and, row by row, between the [td] tags. *)
Definition tableMarkup (titles : list jsstr) (cells : list (list jsstr))
    : jsstr :=
  [NEWLINE] ++ str "      <thead>" ++ [NEWLINE]
  ++ str "        <tr>"
  ++ join [] (List.map (fun h => str "<th>" ++ h ++ str "</th>") titles)
  ++ str "</tr>" ++ [NEWLINE]
  ++ str "      </thead>" ++ [NEWLINE]
  ++ str "      <tbody>" ++ [NEWLINE]
  ++ str "        "
  ++ join [] (List.map
                (fun row =>
                   str "<tr>"
                   ++ join [] (List.map (fun v => str "<td>" ++ v ++ str "</td>")
                                 row)
                   ++ str "</tr>")
                cells)
  ++ [NEWLINE] ++ str "      </tbody>" ++ [NEWLINE] ++ str "    ".

(** What [showPreview(data)] assigns to the [innerHTML] of the preview
    table; [None] when it returns without writing anything.  The names
    go between the [th] tags as they are, the values through
    [escapeHtml]. *)
Definition showPreview `{Host} (data : list record) : option jsstr :=
  match data with
  | [] => None
  | first :: _ =>
      let headers := keys first in
      Some (tableMarkup headers
              (List.map
                 (fun row =>
                    List.map (fun h => escapeHtml (fieldText h row)) headers)
                 data))
  end.

(** What [handleFileUpload] stages once the file is read, for the text
    of the chosen file ([None] when no file was chosen): the rows given
    to [showPreview] and the [data-full-data] attribute of the import
    button. *)
Record staged := Staged {
  previewRows : list record;
  fullData : jsstr
}.

Definition handleFileUpload `{Host} (file : option jsstr) : option staged :=
  match file with
  | None => None
  | Some csv =>
      let parsed := parseCSV csv in
      Some (Staged (slice parsed 0 5) (JSON_stringify parsed))
  end.

(** ** A sample host that reads JSON back

    [Sample.host] with a reader for the arrays of leads [Sample.stringify]
    writes (objects of string properties, no white space between
    tokens). *)
Module Json.

(** The characters of a string literal from after its opening quote, and
    what follows the closing quote. *)
Fixpoint readString (s acc : jsstr) : option (jsstr * jsstr) :=
  match s with
  | [] => None
  | c :: s' =>
      if (c =? QUOTE)%N then Some (acc, s')
      else if (c =? 92)%N then
        match s' with
        | e :: s'' => readString s'' (acc ++ [e])
        | [] => None
        end
      else readString s' (acc ++ [c])
  end.

(** [name:value] pairs up to the closing brace. *)
Fixpoint readPairs (fuel : nat) (s : jsstr) (acc : record)
    : option (record * jsstr) :=
  match fuel, s with
  | S fuel', q :: s1 =>
      if (q =? QUOTE)%N then
        match readString s1 [] with
        | Some (name, colon :: q' :: s2) =>
            if ((colon =? 58) && (q' =? QUOTE))%N then
              match readString s2 [] with
              | Some (value, sep :: s3) =>
                  if (sep =? COMMA)%N
                  then readPairs fuel' s3 (assign name value acc)
                  else if (sep =? 125)%N
                  then Some (assign name value acc, s3)
                  else None
              | _ => None
              end
            else None
        | _ => None
        end
      else None
  | _, _ => None
  end.

Definition readObject (s : jsstr) : option (record * jsstr) :=
  match s with
  | open :: close :: s' =>
      if ((open =? 123) && (close =? 125))%N then Some ([], s')
      else if (open =? 123)%N then readPairs (length s) (close :: s') []
      else None
  | _ => None
  end.

(** Objects up to the closing bracket. *)
Fixpoint readObjects (fuel : nat) (s : jsstr) (acc : list record)
    : option (list record) :=
  match fuel with
  | O => None
  | S fuel' =>
      match readObject s with
      | Some (r, [sep]) =>
          if (sep =? 93)%N then Some (acc ++ [r]) else None
      | Some (r, sep :: s') =>
          if (sep =? COMMA)%N then readObjects fuel' s' (acc ++ [r])
          else None
      | _ => None
      end
  end.

Definition parse (s : jsstr) : parsed :=
  if bool_decide (s = str "[]") then ParsedLeads []
  else if bool_decide (s = str "null") then ParsedOther
  else if bool_decide (s = str "[null]") then ParsedForeign
  else
    match s with
    | open :: s' =>
        if (open =? 91)%N then
          match readObjects (length s) s' [] with
          | Some l => ParsedLeads l
          | None => ParseFailure
          end
        else ParseFailure
    | [] => ParseFailure
    end.

Definition host : Host := {|
  toLowerCase := List.map Sample.lowerChar;
  Date_parse := Sample.parseIsoDate;
  toDateString := Sample.dayText;
  toDouble := fun n => n;
  Function_toString := Sample.nativeCode;
  JSON_parse := parse;
  JSON_stringify := Sample.stringify;
  setItem_accepts := fun _ => true
|}.

End Json.

(** ** Vocabulary of the further properties *)

(** The verdict of the filter callback on a lead, a throw counting as a
    refusal. *)
Definition passes `{Host} (c : controls) (lead : record) : bool :=
  match keeps c lead with
  | Normal b => b
  | Throw _ | Outside => false
  end.

(** No search term and no filter is set. *)
Definition noCriteria `{Host} (c : controls) : Prop :=
  orEmpty (toLowerCase <$> search_leads c) = []
  /\ orEmpty (filter_stage c) = []
  /\ orEmpty (filter_source c) = []
  /\ orEmpty (filter_responsible c) = []
  /\ orEmpty (filter_date c) = [].

(** What the manager loads and stays an array of leads: a text that does
    not parse, a value that is not iterable, an array of leads. *)
Definition followed (p : parsed) : Prop :=
  match p with
  | ParseFailure | ParsedOther | ParsedLeads _ => True
  | ParsedString | ParsedForeign => False
  end.

(** The store holds no iterable value other than an array of leads. *)
Definition absent_or_leads `{Host} (blob : option jsstr) : Prop :=
  forall stored, blob = Some stored -> truthy stored = true ->
    followed (JSON_parse stored).

(** The header names that become the fields of a row: all but
    [__proto__]. *)
Definition fieldNames (headers : list jsstr) : list jsstr :=
  List.filter (fun h => negb (bool_decide (h = PROTO))) headers.

(** The [ID]s of a collection, [None] for a lead without one. *)
Definition ids (l : list record) : list (option jsstr) :=
  List.map (get (str "ID")) l.

(** The rows of the pages 1 to [k], one page after the other. *)
Definition pagesUpTo (st : state) (k : nat) : list record :=
  concat (List.map (fun p => pageLeads (with_currentPage (Z.of_nat p) st))
            (seq 1 k)).

(** * Properties *)

(** ** Lists *)

Lemma filter_sublist {A} (p : A -> bool) (l : list A) :
  sublist (List.filter p l) l.
Proof.
  induction l as [|x l IH]; simpl.
  - constructor.
  - destruct (p x); [by apply sublist_skip | by apply sublist_cons].
Qed.

(** ** CSV codec: which rows are read *)

Lemma fold_parseRow headers ls data :
  fold_left (parseRow headers) ls data
  = data ++ List.map (fun line => fillRow headers 0 (parseCSVLine line) [])
              (List.filter (fun line =>
                 bool_decide (length (parseCSVLine line) = length headers)) ls).
Proof.
  revert data. induction ls as [|line ls IH]; intros data; simpl.
  - by rewrite app_nil_r.
  - rewrite IH. unfold parseRow.
    destruct (decide (length (parseCSVLine line) = length headers)) as [E|E].
    + rewrite (bool_decide_eq_true_2 _ E). simpl. by rewrite <- app_assoc.
    + by rewrite (bool_decide_eq_false_2 _ E).
Qed.

(** C8. The rows [parseCSV] returns are, in order, the data lines (the
    non-blank lines after the first) whose quote-aware field count equals
    the number of header names, each turned into a record; so the result
    has as many records as there are such lines and the other lines are
    dropped.  [parseCSV] is a total function: no input makes it fail. *)
Theorem parseCSV_keeps_rows_of_matching_arity (csv : jsstr) :
  let headers := headerNames (hd [] (nonBlankLines csv)) in
  let dataLines := tl (nonBlankLines csv) in
  let accepted :=
    List.filter (fun line =>
      bool_decide (length (parseCSVLine line) = length headers)) dataLines in
  parseCSV csv
  = List.map (fun line => fillRow headers 0 (parseCSVLine line) []) accepted
  /\ length (parseCSV csv) = length accepted.
Proof.
  intros headers dataLines accepted.
  assert (E : parseCSV csv
    = List.map (fun line => fillRow headers 0 (parseCSVLine line) []) accepted).
  { unfold parseCSV, accepted, dataLines, headers.
    destruct (nonBlankLines csv) as [|h [|l ls]]; try reflexivity.
    change (length (h :: l :: ls) <? 2)%nat with false. cbv iota.
    by rewrite fold_parseRow. }
  split; [exact E | rewrite E; apply length_map].
Qed.

(** ** Record store: import *)

Lemma importLoop_snoc skip coll pre lead :
  importLoop skip coll (pre ++ [lead])
  = importOne skip (importLoop skip coll pre) lead.
Proof. unfold importLoop. by rewrite fold_left_app. Qed.

Lemma import_all l t :
  fold_left (importOne false) l t
  = Tally (merged t ++ l) (importedCount t + Z.of_nat (length l))
          (skippedCount t).
Proof.
  revert t. induction l as [|x l IH]; intros [m i k]; simpl.
  - by rewrite app_nil_r, Z.add_0_r.
  - rewrite IH. simpl. rewrite <- app_assoc. simpl. f_equal. lia.
Qed.

Lemma import_kept skip l t :
  exists kept,
    fold_left (importOne skip) l t
    = Tally (merged t ++ kept) (importedCount t + Z.of_nat (length kept))
            (skippedCount t + (Z.of_nat (length l) - Z.of_nat (length kept)))
    /\ sublist kept l.
Proof.
  revert t. induction l as [|x l IH]; intros [m i k].
  - exists []. simpl. rewrite app_nil_r, !Z.add_0_r. split; [done | constructor].
  - simpl. unfold importOne at 2. simpl.
    destruct (skip && existsb (sameID x) m).
    + destruct (IH (Tally m i (k + 1))) as (kept & E & S).
      exists kept. split; [| by apply sublist_cons].
      rewrite E. simpl. f_equal. lia.
    + destruct (IH (Tally (m ++ [x]) (i + 1) k)) as (kept & E & S).
      exists (x :: kept). split; [| by apply sublist_skip].
      rewrite E. simpl. rewrite <- app_assoc. simpl. f_equal; lia.
Qed.

Lemma sameID_trans lead x e :
  sameID x e = true -> sameID lead x = true -> sameID lead e = true.
Proof.
  unfold sameID. rewrite !bool_decide_eq_true. congruence.
Qed.

(** A record is a duplicate of one in the collection as the loop has it
    exactly when it is one of a record of the original collection or of an
    earlier incoming record. *)
Lemma import_duplicate_of_earlier coll pre lead :
  existsb (sameID lead) (merged (importLoop true coll pre))
  = existsb (sameID lead) (coll ++ pre).
Proof.
  induction pre as [|x pre IH] using rev_ind.
  - simpl. by rewrite app_nil_r.
  - rewrite importLoop_snoc, app_assoc, existsb_app, <- IH. simpl.
    unfold importOne. simpl.
    destruct (existsb (sameID x) (merged (importLoop true coll pre))) eqn:D; simpl.
    + rewrite orb_false_r.
      destruct (sameID lead x) eqn:E; [| by rewrite orb_false_r].
      rewrite orb_true_r. apply existsb_exists in D as (e & In_e & He).
      apply existsb_exists. exists e. split; [done |].
      by apply sameID_trans with x.
    + by rewrite existsb_app.
Qed.

(** The test of the loop, [this.leads.some(existing => existing.ID ===
    lead.ID)], is the existence of a record with the [ID] of [lead]. *)
Lemma existsb_sameID lead l :
  existsb (sameID lead) l = true
  <-> exists existing,
        In existing l /\ get (str "ID") existing = get (str "ID") lead.
Proof.
  rewrite existsb_exists. unfold sameID.
  split; intros (e & Hin & He); exists e; split; try done.
  - by apply bool_decide_eq_true in He.
  - by apply bool_decide_eq_true.
Qed.

(** C4. Import merges the incoming records into the collection in their
    order.  Without [skipDuplicates] every incoming record is appended.
    With it, the collection becomes the old one followed by a subsequence
    [kept] of the incoming records, [importedCount] counts [kept] and
    [skippedCount] the others; and when the loop comes to a record [lead]
    after the records [pre], it drops [lead] and counts it as skipped if
    some record of the collection as it is then has the [ID] of [lead],
    and appends [lead] and counts it as imported if none has.  The
    collection as it is then holds a record with the [ID] of [lead]
    exactly when the original collection or [pre] does. *)
Theorem importLeads_merges_in_order (coll incoming pre : list record)
    (lead : record) :
  importLoop false coll incoming
  = Tally (coll ++ incoming) (Z.of_nat (length incoming)) 0
  /\ (exists kept,
        importLoop true coll incoming
        = Tally (coll ++ kept) (Z.of_nat (length kept))
                (Z.of_nat (length incoming) - Z.of_nat (length kept))
        /\ sublist kept incoming)
  /\ (let before := importLoop true coll pre in
      ((exists existing,
          In existing (merged before)
          /\ get (str "ID") existing = get (str "ID") lead) ->
       importLoop true coll (pre ++ [lead])
       = Tally (merged before) (importedCount before)
               (skippedCount before + 1))
      /\ ((forall existing,
             In existing (merged before) ->
             get (str "ID") existing <> get (str "ID") lead) ->
          importLoop true coll (pre ++ [lead])
          = Tally (merged before ++ [lead]) (importedCount before + 1)
                  (skippedCount before)))
  /\ ((exists existing,
         In existing (merged (importLoop true coll pre))
         /\ get (str "ID") existing = get (str "ID") lead)
      <-> (exists earlier,
             In earlier (coll ++ pre)
             /\ get (str "ID") earlier = get (str "ID") lead)).
Proof.
  split; [| split; [| split]].
  - unfold importLoop. by rewrite import_all.
  - unfold importLoop.
    destruct (import_kept true incoming (Tally coll 0 0)) as (kept & E & S).
    exists kept. split; [| done]. rewrite E. simpl. f_equal.
  - intros before. rewrite importLoop_snoc. fold before.
    unfold importOne. simpl. split.
    + intros Dup. apply existsb_sameID in Dup. by rewrite Dup.
    + intros New.
      destruct (existsb (sameID lead) (merged before)) eqn:E; [| done].
      apply existsb_sameID in E as (e & Hin & He). by destruct (New e Hin).
  - rewrite <- !existsb_sameID. by rewrite import_duplicate_of_earlier.
Qed.

(** A collection with the lead 1 and an import of the leads 2, 1, 2 and
    of a lead without [ID]: the second 2 meets the first. *)
Lemma importLeads_merges_in_order_witness :
  let lead (id : string) : record := [(str "ID", str id)] in
  importLoop true [lead "1"%string]
    ([lead "2"%string; lead "1"%string] ++ [lead "2"%string])
  = Tally [lead "1"%string; lead "2"%string] 1 2
  /\ importLoop true [lead "1"%string]
       ([lead "2"%string; lead "1"%string] ++ [[]])
     = Tally [lead "1"%string; lead "2"%string; []] 2 1.
Proof.
  intros lead. split.
  - destruct (importLeads_merges_in_order [lead "1"%string] []
                [lead "2"%string; lead "1"%string] (lead "2"%string))
      as (_ & _ & [Dup _] & _).
    apply Dup. exists (lead "2"%string). split; [right; by left | done].
  - destruct (importLeads_merges_in_order [lead "1"%string] []
                [lead "2"%string; lead "1"%string] [])
      as (_ & _ & [_ New] & _).
    apply New. intros existing [<- | [<- | []]]; discriminate.
Defined.

(** ** How the operations run *)

Section Runs.
Context `{Host}.

Lemma saveLeads_run st :
  saveLeads st
  = (Normal tt,
     if setItem_accepts (JSON_stringify (leads st))
     then with_leadsData (Some (JSON_stringify (leads st))) st
     else st).
Proof.
  unfold saveLeads, tryCatch.
  by destruct (setItem_accepts (JSON_stringify (leads st))).
Qed.

Lemma saveLeads_leads st : leads (final (saveLeads st)) = leads st.
Proof.
  rewrite saveLeads_run. unfold final. simpl.
  by destruct (setItem_accepts (JSON_stringify (leads st))).
Qed.

Lemma filterLeads_run c st :
  filterLeads c st
  = match filterE (keeps c) (leads st) with
    | Normal kept =>
        (Normal tt,
         renderTable (with_currentPage 1 (with_filteredLeads kept st)))
    | Throw e => (Throw e, st)
    | Outside => (Outside, st)
    end.
Proof.
  unfold filterLeads, bind, lift, modify.
  by destruct (filterE (keeps c) (leads st)).
Qed.

Lemma renderTable_leads st : leads (renderTable st) = leads st.
Proof. reflexivity. Qed.

Lemma renderTable_currentPage st :
  currentPage (renderTable st) = currentPage st.
Proof. reflexivity. Qed.

Lemma renderTable_filteredLeads st :
  filteredLeads (renderTable st) = filteredLeads st.
Proof. reflexivity. Qed.

Lemma filterLeads_leads c st : leads (final (filterLeads c st)) = leads st.
Proof.
  rewrite filterLeads_run. by destruct (filterE (keeps c) (leads st)).
Qed.

Lemma deleteLead_run c id st :
  deleteLead c true id st
  = filterLeads c
      (final (saveLeads
                (with_leads (List.filter (differentID id) (leads st)) st))).
Proof.
  unfold deleteLead, bind, modify, reads, ret. rewrite !saveLeads_run.
  unfold final. simpl. by destruct (filterLeads c _) as [[[]|e|] st'].
Qed.

(** A filter without the throwing callback. *)
Lemma filterE_Normal {A} (f : A -> completion bool) (p : A -> bool) l :
  (forall x, In x l -> f x = Normal (p x)) ->
  filterE f l = Normal (List.filter p l).
Proof.
  induction l as [|x l IH]; intros Hf; simpl; [done |].
  rewrite (Hf x) by (by left). rewrite IH by (intros; apply Hf; by right).
  reflexivity.
Qed.

(** The callback of [filterLeads] stays inside the model. *)
Lemma keeps_inside c lead : keeps c lead <> Outside.
Proof.
  unfold keeps, leadMatches. destruct (truthy _); [| done].
  by destruct (get (str "Created") lead).
Qed.


Lemma filterE_Throw {A} (f : A -> completion bool) l x e :
  (forall y, f y <> Outside) ->
  In x l -> f x = Throw e -> exists e', filterE f l = Throw e'.
Proof.
  intros Hf. induction l as [|y l IH]; intros Hin Hx; [done |].
  simpl. destruct Hin as [->|Hin].
  - rewrite Hx. eauto.
  - pose proof (Hf y). destruct (f y); [| eauto | done].
    destruct (IH Hin Hx) as [e' ->]. eauto.
Qed.

End Runs.

(** ** Record store: delete *)

(** C6. Once the dialog is confirmed, [deleteLead(id)] leaves in the
    collection exactly the records whose [ID] is not strictly equal to
    [id], in their former order: the new collection is the old one
    filtered by [lead.ID !== id].  Strict equality on a stored string or
    [undefined] is equality of the stored representation.  When the
    dialog is declined nothing changes. *)
Theorem deleteLead_removes_exactly_the_id `{Host} (c : controls)
    (id : option jsstr) (st : state) :
  let st' := final (deleteLead c true id st) in
  leads st' = List.filter (differentID id) (leads st)
  /\ (forall lead,
        In lead (leads st') <-> In lead (leads st) /\ get (str "ID") lead <> id)
  /\ sublist (leads st') (leads st)
  /\ deleteLead c false id st = (Normal tt, st).
Proof.
  intros st'.
  assert (E : leads st' = List.filter (differentID id) (leads st)).
  { unfold st'. rewrite deleteLead_run, filterLeads_leads, saveLeads_leads.
    reflexivity. }
  rewrite E. split; [done | split; [| split; [| done]]].
  - intros lead. rewrite filter_In. unfold differentID.
    rewrite negb_true_iff, bool_decide_eq_false. done.
  - apply filter_sublist.
Qed.

(** ** Pager *)

Lemma slice_window {A} (l : list A) (start size : Z) :
  0 <= start -> 0 <= size ->
  slice l start (start + size)
  = take (Z.to_nat (Z.min (start + size) (Z.of_nat (length l)) - start))
         (drop (Z.to_nat start) l).
Proof.
  intros Hs Hz. unfold slice.
  destruct (start <? 0) eqn:E1; [lia |].
  destruct (start + size <? 0) eqn:E2; [lia |].
  destruct (Z_le_gt_dec start (Z.of_nat (length l))) as [Hin|Hout].
  - rewrite (Z.min_l start) by lia. f_equal. lia.
  - rewrite (Z.min_r start) by lia.
    rewrite !drop_ge by lia. by rewrite !take_nil.
Qed.

(** C7. For a page number and a page size of at least 1, [renderTable]
    reports [rangeStart = (pageNumber-1)*pageSize + 1],
    [rangeEnd = min(rangeStart+pageSize-1, total)] and the length of the
    View as [total], and draws the records at the positions [rangeStart]
    to [rangeEnd] of the View (counted from 1), in order; past the last
    page it draws nothing, without failing. *)
Theorem renderTable_shows_the_page (st : state) :
  1 <= currentPage st -> 1 <= pageSize st ->
  let view := filteredLeads st in
  let totalCount := Z.of_nat (length view) in
  let rangeStart := (currentPage st - 1) * pageSize st + 1 in
  let rangeEnd := Z.min (rangeStart + pageSize st - 1) totalCount in
  let shown := page (renderTable st) in
  showing shown = (rangeStart, rangeEnd)
  /\ total shown = totalCount
  /\ rows shown
     = take (Z.to_nat (rangeEnd - rangeStart + 1))
            (drop (Z.to_nat (rangeStart - 1)) view)
  /\ (forall i : nat,
        rows shown !! i
        = if decide (rangeStart + Z.of_nat i <= rangeEnd)
          then view !! (Z.to_nat (rangeStart - 1) + i)%nat
          else None)
  /\ ((totalCount + pageSize st - 1) / pageSize st < currentPage st ->
      rows shown = []).
Proof.
  intros Hp Hs view totalCount rangeStart rangeEnd shown.
  assert (Hstart : 0 <= (currentPage st - 1) * pageSize st) by nia.
  assert (R : rows shown
              = take (Z.to_nat (rangeEnd - rangeStart + 1))
                     (drop (Z.to_nat (rangeStart - 1)) view)).
  { unfold shown, renderTable, updatePagination. simpl. unfold pageLeads.
    rewrite slice_window by lia. fold view. unfold rangeEnd, rangeStart, totalCount.
    f_equal; [| f_equal]; lia. }
  split; [done | split; [done | split; [exact R | split]]].
  - intros i. rewrite R. destruct (decide (rangeStart + Z.of_nat i <= rangeEnd)).
    + rewrite lookup_take_lt by lia. by rewrite lookup_drop.
    + by rewrite lookup_take_ge by lia.
  - intros Hpast. rewrite R.
    assert (totalCount <= (currentPage st - 1) * pageSize st).
    { assert (0 <= totalCount) by (unfold totalCount; lia).
      destruct (Z_le_gt_dec totalCount ((currentPage st - 1) * pageSize st));
        [done | exfalso].
      assert ((currentPage st - 1) * pageSize st + pageSize st
              <= totalCount + pageSize st - 1) by lia.
      assert (currentPage st <= (totalCount + pageSize st - 1) / pageSize st).
      { apply Z.div_le_lower_bound; lia. }
      lia. }
    rewrite drop_ge; [by rewrite take_nil |]. unfold totalCount in *. lia.
Qed.

(** The example of the specification: 25 records in pages of 10, page 3. *)
Lemma renderTable_shows_the_page_witness :
  let st := State [] (repeat [] 25) 3 10 [] asc None (Display [] (0, 0) 0) in
  showing (page (renderTable st)) = (21, 25)
  /\ total (page (renderTable st)) = 25
  /\ length (rows (page (renderTable st))) = 5%nat.
Proof.
  intros st.
  destruct (renderTable_shows_the_page st) as (S & T & R & _); [simpl; lia .. |].
  rewrite S, T, R. split; [| split]; reflexivity.
Defined.

(** ** Record store: load *)

Lemma loadStoredLeads_run `{Host} (st : state) :
  loadStoredLeads st
  = match leadsData st with
    | Some stored =>
        if truthy stored then
          match JSON_parse stored with
          | ParsedLeads l => (Normal tt, with_filteredLeads l (with_leads l st))
          | ParseFailure | ParsedOther =>
              (Normal tt, with_filteredLeads [] (with_leads [] st))
          | ParsedString | ParsedForeign => (Outside, st)
          end
        else (Normal tt, st)
    | None => (Normal tt, st)
    end.
Proof.
  unfold loadStoredLeads.
  destruct (leadsData st) as [stored|]; [| done].
  destruct (truthy stored); [| done].
  unfold tryCatch. by destruct (JSON_parse stored).
Qed.

Lemma loadStoredLeads_never_throws `{Host} (st : state) e :
  outcome (loadStoredLeads st) <> Throw e.
Proof.
  rewrite loadStoredLeads_run.
  destruct (leadsData st) as [stored|]; [| done].
  destruct (truthy stored); [| done].
  by destruct (JSON_parse stored).
Qed.

(** A blob that parses to something else than an array of leads also ends
    in the empty collection. *)
Lemma loadStoredLeads_not_iterable `{Host} (st : state) stored :
  leadsData st = Some stored -> truthy stored = true ->
  JSON_parse stored = ParsedOther ->
  leads (final (loadStoredLeads st)) = []
  /\ filteredLeads (final (loadStoredLeads st)) = [].
Proof.
  intros E T P. unfold loadStoredLeads. rewrite E, T. unfold tryCatch.
  by rewrite P.
Qed.

(** C9. A manager built over a store whose blob is absent or does not
    parse starts with the empty collection (and the empty View), and
    loading raises nothing. *)
Theorem loadStoredLeads_recovers `{Host} (blob : option jsstr) :
  blob = None
  \/ (exists stored, blob = Some stored /\ JSON_parse stored = ParseFailure) ->
  let r := loadStoredLeads (fresh blob) in
  outcome r = Normal tt
  /\ leads (final r) = []
  /\ filteredLeads (final r) = [].
Proof.
  intros Hblob r. unfold r. rewrite loadStoredLeads_run.
  destruct Hblob as [-> | (stored & -> & P)]; [done |].
  simpl. destruct (truthy stored); [| done].
  by rewrite P.
Qed.

Lemma loadStoredLeads_recovers_witness :
  (let r := loadStoredLeads (H := Sample.host) (fresh None) in
   outcome r = Normal tt /\ leads (final r) = [] /\ filteredLeads (final r) = [])
  /\ (let r := loadStoredLeads (H := Sample.host)
                 (fresh (Some (str "{broken"))) in
      outcome r = Normal tt /\ leads (final r) = []
      /\ filteredLeads (final r) = []).
Proof.
  split.
  - apply (loadStoredLeads_recovers (H := Sample.host) None). by left.
  - apply (loadStoredLeads_recovers (H := Sample.host) (Some (str "{broken"))).
    right. exists (str "{broken"). split; reflexivity.
Defined.

(** ** Query engine: the sort column and direction *)

Section SortState.
Context `{Host}.

Lemma sortTable_sortColumn column st :
  sortColumn (sortTable column st) = column.
Proof.
  unfold sortTable.
  destruct (decide (sortColumn st = column)) as [E|E];
    destruct (columnMap column); simpl; congruence.
Qed.

Lemma sortTable_sortDirection column st :
  sortDirection (sortTable column st)
  = if decide (sortColumn st = column) then toggle (sortDirection st) else asc.
Proof.
  unfold sortTable.
  destruct (decide (sortColumn st = column)) as [E|E];
    by destruct (columnMap column).
Qed.

Lemma sortTable_unknown column st :
  columnMap column = None ->
  filteredLeads (sortTable column st) = filteredLeads st.
Proof.
  intros E. unfold sortTable. rewrite E.
  by destruct (decide (sortColumn st = column)).
Qed.

Lemma sortTable_currentPage column st :
  currentPage (sortTable column st) = currentPage st.
Proof.
  unfold sortTable.
  destruct (decide (sortColumn st = column)) as [E|E];
    by destruct (columnMap column).
Qed.

Lemma sortTable_filteredLeads column actualColumn st :
  columnMap column = Some actualColumn ->
  filteredLeads (sortTable column st)
  = sort (compareLeads actualColumn (sortDirection (sortTable column st)))
         (filteredLeads st).
Proof.
  intros E. rewrite sortTable_sortDirection. unfold sortTable. rewrite E.
  by destruct (decide (sortColumn st = column)).
Qed.

End SortState.



(** ** Query engine: a lead without [Created] under a date filter *)

Section DateFilter.
Context `{Host}.

Lemma leadMatches_throws_TypeError s g o r d lead e :
  leadMatches s g o r d lead = Throw e -> e = TypeError.
Proof.
  unfold leadMatches. destruct (truthy d); [| done].
  destruct (get (str "Created") lead); [done | congruence].
Qed.

Lemma filterE_keeps_TypeError c l e :
  filterE (keeps c) l = Throw e -> e = TypeError.
Proof.
  induction l as [|x l IH]; simpl; [done |].
  destruct (keeps c x) eqn:K; [| | done].
  - destruct (filterE (keeps c) l); [done | | done]. intros [= <-]. by apply IH.
  - intros [= <-]. unfold keeps in K. by eapply leadMatches_throws_TypeError.
Qed.

Lemma keeps_without_Created c lead :
  truthy (orEmpty (filter_date c)) = true ->
  get (str "Created") lead = None ->
  keeps c lead = Throw TypeError.
Proof.
  intros D C. unfold keeps, leadMatches. by rewrite D, C.
Qed.

End DateFilter.

(** C2 (what the code does).  With a date filter chosen, a lead that has
    no [Created] property makes the callback of [filterLeads] throw a
    TypeError (it calls [split] on [undefined]); [filterLeads] throws it
    on and leaves the View, the page number and the page as they were. *)
Theorem filterLeads_throws_without_Created `{Host} (c : controls)
    (st : state) (lead : record) :
  truthy (orEmpty (filter_date c)) = true ->
  In lead (leads st) ->
  get (str "Created") lead = None ->
  keeps c lead = Throw TypeError
  /\ filterLeads c st = (Throw TypeError, st).
Proof.
  intros D I C. pose proof (keeps_without_Created c lead D C) as K.
  split; [exact K |]. rewrite filterLeads_run.
  destruct (filterE_Throw (keeps c) (leads st) lead TypeError (keeps_inside c)
              I K) as [e E].
  rewrite E. by rewrite (filterE_keeps_TypeError _ _ _ E).
Qed.

Lemma filterLeads_throws_without_Created_witness :
  let c := Controls None None None None (Some (str "2024-01-15")) in
  let lead := [(str "ID", str "7"); (str "Lead Name", str "Ann")] in
  let st := State [lead] [lead] 1 10 [] asc None (Display [] (0, 0) 0) in
  keeps (H := Sample.host) c lead = Throw TypeError
  /\ filterLeads (H := Sample.host) c st = (Throw TypeError, st).
Proof.
  intros c lead st.
  apply (filterLeads_throws_without_Created (H := Sample.host) c st lead).
  - reflexivity.
  - by left.
  - reflexivity.
Defined.

(** ** Pager: the page number after a filter or a sort *)

Section FirstPage.
Context `{Host}.

Lemma stays_ret {A} (a : A) : staysOnFirstPage (ret a).
Proof. by intros st. Qed.

Lemma stays_throw {A} e : staysOnFirstPage (@throw A e).
Proof. by intros st. Qed.

Lemma stays_lift {A} (c : completion A) : staysOnFirstPage (lift c).
Proof. by intros st. Qed.

Lemma stays_modify f :
  (forall st, currentPage st = 1 -> currentPage (f st) = 1) ->
  staysOnFirstPage (modify f).
Proof. intros Hf st. apply Hf. Qed.

Lemma stays_read : staysOnFirstPage (fun st => (Normal st, st)).
Proof. by intros st. Qed.

Lemma stays_reads {A} (f : state -> A) : staysOnFirstPage (reads f).
Proof. by intros st. Qed.

Lemma stays_bind {A B} (m : M A) (k : A -> M B) :
  staysOnFirstPage m -> (forall a, staysOnFirstPage (k a)) ->
  staysOnFirstPage (bind m k).
Proof.
  intros Hm Hk st P. unfold bind. specialize (Hm st P).
  destruct (m st) as [[a|e|] st']; [by apply Hk | exact Hm | exact Hm].
Qed.

Lemma stays_tryCatch {A} (body : M A) handler :
  staysOnFirstPage body -> (forall e, staysOnFirstPage (handler e)) ->
  staysOnFirstPage (tryCatch body handler).
Proof.
  intros Hm Hk st P. unfold tryCatch. specialize (Hm st P).
  destruct (body st) as [[a|e|] st']; [exact Hm | by apply Hk | exact Hm].
Qed.

Lemma stays_saveLeads : staysOnFirstPage saveLeads.
Proof.
  intros st P. rewrite saveLeads_run. unfold final. simpl.
  by destruct (setItem_accepts (JSON_stringify (leads st))).
Qed.

Lemma stays_filterLeads c : staysOnFirstPage (filterLeads c).
Proof.
  intros st P. rewrite filterLeads_run.
  by destruct (filterE (keeps c) (leads st)).
Qed.

Lemma stays_loadStoredLeads : staysOnFirstPage loadStoredLeads.
Proof.
  intros st P. unfold loadStoredLeads.
  destruct (leadsData st) as [stored|]; [| done].
  destruct (truthy stored); [| done].
  unfold tryCatch. by destruct (JSON_parse stored).
Qed.

Lemma stays_importLeads c fullData skip :
  staysOnFirstPage (importLeads c fullData skip).
Proof.
  unfold importLeads. destruct fullData as [fullData|]; [| apply stays_ret].
  destruct (negb (truthy fullData)); [apply stays_ret |].
  apply stays_tryCatch; [| intros; apply stays_ret].
  apply stays_bind; [apply stays_lift | intros newLeads].
  apply stays_bind; [apply stays_read | intros st].
  apply stays_bind; [by apply stays_modify | intros _].
  apply stays_bind; [apply stays_saveLeads | intros _].
  apply stays_bind; [apply stays_filterLeads | intros _].
  apply stays_bind; [apply stays_reads | intros _].
  apply stays_bind; [by apply stays_modify | intros _].
  apply stays_ret.
Qed.

Lemma stays_deleteLead c confirmed id :
  staysOnFirstPage (deleteLead c confirmed id).
Proof.
  unfold deleteLead. destruct confirmed; [| apply stays_ret].
  apply stays_bind; [by apply stays_modify | intros _].
  apply stays_bind; [apply stays_saveLeads | intros _].
  apply stays_bind; [apply stays_filterLeads | intros _].
  apply stays_bind; [apply stays_reads | intros _].
  apply stays_ret.
Qed.

Lemma perform_stays st a :
  currentPage st = 1 -> currentPage (perform st a) = 1.
Proof.
  intros P. destruct a as [c|column|c fullData skip|c confirmed id]; simpl.
  - by apply stays_filterLeads.
  - by rewrite sortTable_currentPage.
  - by apply stays_importLeads.
  - by apply stays_deleteLead.
Qed.

(** No operation of the manager sets a page other than 1: a manager is on
    page 1 from its construction on. *)
Lemma session_on_first_page blob actions :
  currentPage (session blob actions) = 1.
Proof.
  unfold session.
  assert (P : currentPage (final (init (fresh blob))) = 1).
  { assert (S : staysOnFirstPage init); [| by apply S].
    unfold init.
    apply stays_bind; [apply stays_ret | intros _].
    apply stays_bind; [apply stays_loadStoredLeads | intros _].
    apply stays_bind; [by apply stays_modify | intros _].
    apply stays_bind; [apply stays_reads | intros _].
    apply stays_ret. }
  revert P. generalize (final (init (fresh blob))).
  induction actions as [|a actions IH]; intros st P; simpl; [done |].
  apply IH. by apply perform_stays.
Qed.

End FirstPage.

(** C3 (as the code has it).  A filter operation that completes leaves the
    manager on page 1.  A sort operation does not touch the page number,
    so that after it the page is 1 when it was 1 before; this is the case
    in every state the manager reaches from its construction, no operation
    setting another page. *)
Theorem filter_resets_page_and_sort_keeps_it `{Host} (c : controls)
    (column : jsstr) (st : state) (blob : option jsstr)
    (actions : list action) :
  (outcome (filterLeads c st) = Normal tt ->
   currentPage (final (filterLeads c st)) = 1)
  /\ currentPage (sortTable column st) = currentPage st
  /\ currentPage (sortTable column (session blob actions)) = 1.
Proof.
  split; [| split].
  - rewrite filterLeads_run. by destruct (filterE (keeps c) (leads st)).
  - apply sortTable_currentPage.
  - rewrite sortTable_currentPage. apply session_on_first_page.
Qed.

Lemma filter_resets_page_and_sort_keeps_it_witness :
  let lead := [(str "ID", str "7"); (str "Stage", str "NEW")] in
  let c := Controls None (Some (str "NEW")) None None None in
  let st := State [lead] [] 4 10 [] asc None (Display [] (0, 0) 0) in
  outcome (filterLeads (H := Sample.host) c st) = Normal tt
  /\ currentPage (final (filterLeads (H := Sample.host) c st)) = 1
  /\ currentPage (sortTable (H := Sample.host) (str "sort-id") st) = 4.
Proof.
  intros lead c st.
  destruct (filter_resets_page_and_sort_keeps_it (H := Sample.host)
              c (str "sort-id") st None []) as (F & S & _).
  split; [reflexivity | split; [exact (F eq_refl) | exact S]].
Defined.

(** C3 as stated fails for the sort: on page 2 of a View of eleven leads,
    sorting by [sort-id] leaves the manager on page 2. *)
Lemma sortTable_keeps_page_counterexample :
  let lead := [(str "ID", str "7")] in
  let st := State (repeat lead 11) (repeat lead 11) 2 10 [] asc None
                  (Display [lead] (11, 11) 11) in
  currentPage (sortTable (H := Sample.host) (str "sort-id") st) <> 1.
Proof. intros lead st. rewrite sortTable_currentPage. simpl. lia. Qed.

(** ** Query engine: the sort *)

Section InsertionSort.
Context {A : Type} (compare : A -> A -> Z) (P : A -> Prop).

(** [compare] is consistent on the elements that satisfy [P]. *)
Hypothesis compare_flip :
  forall a b, P a -> P b -> 0 < compare a b -> compare b a <= 0.
Hypothesis compare_trans :
  forall a b c, P a -> P b -> P c ->
    compare a b <= 0 -> compare b c <= 0 -> compare a c <= 0.
Hypothesis compare_equal :
  forall z x y, P z -> P x -> P y ->
    compare z x = 0 -> compare z y = 0 -> compare x y = 0.

Lemma insertSorted_perm x l : Permutation (x :: l) (insertSorted compare x l).
Proof.
  induction l as [|y l IH]; simpl; [done |].
  destruct (0 <? compare x y); [| done].
  rewrite perm_swap. by constructor.
Qed.

Lemma sort_perm l : Permutation l (sort compare l).
Proof.
  induction l as [|x l IH]; simpl; [done |].
  rewrite <- insertSorted_perm. by constructor.
Qed.

Lemma insertSorted_sorted x l :
  P x -> Forall P l ->
  StronglySorted (fun a b => compare a b <= 0) l ->
  StronglySorted (fun a b => compare a b <= 0) (insertSorted compare x l).
Proof.
  intros Px Pl S. induction S as [|y l S IH F]; simpl.
  - repeat constructor.
  - apply Forall_cons_iff in Pl as [Py Pl].
    destruct (0 <? compare x y) eqn:E.
    + apply Z.ltb_lt in E. constructor; [by apply IH |].
      apply (Permutation_Forall (insertSorted_perm x l)).
      constructor; [by apply compare_flip | done].
    + apply Z.ltb_ge in E. constructor; [by constructor |].
      constructor; [done |].
      rewrite List.Forall_forall in F, Pl |- *. intros z Hz.
      apply compare_trans with y; auto.
Qed.

Lemma sort_sorted l :
  Forall P l -> StronglySorted (fun a b => compare a b <= 0) (sort compare l).
Proof.
  induction l as [|x l IH]; intros Pl; simpl; [constructor |].
  apply Forall_cons_iff in Pl as [Px Pl].
  apply insertSorted_sorted; [done | | by apply IH].
  by apply (Permutation_Forall (sort_perm l)).
Qed.

Lemma insertSorted_stable z x l :
  P z -> P x -> Forall P l ->
  List.filter (fun y => compare z y =? 0) (insertSorted compare x l)
  = List.filter (fun y => compare z y =? 0) (x :: l).
Proof.
  intros Pz Px Pl. induction l as [|y l IH]; [done |].
  apply Forall_cons_iff in Pl as [Py Pl].
  simpl. destruct (0 <? compare x y) eqn:E; [| done].
  apply Z.ltb_lt in E. simpl. rewrite (IH Pl). simpl.
  destruct (compare z x =? 0) eqn:Ex; [| done].
  destruct (compare z y =? 0) eqn:Ey; [| done].
  apply Z.eqb_eq in Ex, Ey.
  pose proof (compare_equal z x y Pz Px Py Ex Ey). lia.
Qed.

Lemma sort_stable z l :
  P z -> Forall P l ->
  List.filter (fun y => compare z y =? 0) (sort compare l)
  = List.filter (fun y => compare z y =? 0) l.
Proof.
  intros Pz. induction l as [|x l IH]; intros Pl; [done |].
  apply Forall_cons_iff in Pl as [Px Pl].
  simpl sort. rewrite insertSorted_stable; [| done | done |].
  - simpl. by rewrite (IH Pl).
  - by apply (Permutation_Forall (sort_perm l)).
Qed.

Lemma sort_is_stable l : Forall P l -> stableSortOf compare l (sort compare l).
Proof.
  intros Pl. split; [apply sort_perm | split; [by apply sort_sorted |]].
  intros x Hx. apply sort_stable; [| done].
  rewrite List.Forall_forall in Pl. by apply Pl.
Qed.

(** With a comparator that is moreover reflexive and antisymmetric on
    [P], the stable sort of a list is unique: whatever algorithm an
    implementation of [sort] uses, it returns what [sort] returns here. *)
Hypothesis compare_refl : forall a, P a -> compare a a = 0.
Hypothesis compare_antisym :
  forall a b, P a -> P b ->
    compare a b <= 0 -> compare b a <= 0 -> compare a b = 0.

Lemma sorted_stable_unique o1 o2 :
  Forall P o1 -> Permutation o1 o2 ->
  StronglySorted (fun a b => compare a b <= 0) o1 ->
  StronglySorted (fun a b => compare a b <= 0) o2 ->
  (forall x, In x o1 ->
     List.filter (fun y => compare x y =? 0) o1
     = List.filter (fun y => compare x y =? 0) o2) ->
  o1 = o2.
Proof.
  revert o2. induction o1 as [|x t1 IH]; intros o2 Po Perm S1 S2 Hf.
  - by apply Permutation_nil in Perm.
  - destruct o2 as [|y t2]; [by apply Permutation_sym, Permutation_nil in Perm |].
    apply Forall_cons_iff in Po as [Px Pt].
    apply StronglySorted_inv in S1 as [S1 F1].
    apply StronglySorted_inv in S2 as [S2 F2].
    assert (Py : P y).
    { assert (In y (x :: t1)) as [<- | Hy]
        by (apply (Permutation_in _ (Permutation_sym Perm)); by left);
        [done |].
      rewrite List.Forall_forall in Pt. by apply Pt. }
    assert (E : x = y).
    { pose proof (Hf x (or_introl eq_refl)) as Hx. simpl in Hx.
      rewrite (compare_refl x Px) in Hx. simpl in Hx.
      destruct (compare x y =? 0) eqn:Exy; [by injection Hx |].
      apply Z.eqb_neq in Exy. destruct Exy.
      apply compare_antisym; [done | done | |].
      - assert (In y (x :: t1)) as [<- | Hy]
          by (apply (Permutation_in _ (Permutation_sym Perm)); by left).
        + rewrite (compare_refl x Px). lia.
        + rewrite List.Forall_forall in F1. by apply F1.
      - assert (Hin : In x (List.filter (fun y => compare x y =? 0) t2))
          by (rewrite <- Hx; by left).
        apply filter_In in Hin as [Hin _].
        rewrite List.Forall_forall in F2. by apply F2. }
    subst y. f_equal. apply IH; [done | | done | done |].
    + by apply Permutation_cons_inv in Perm.
    + intros z Hz. specialize (Hf z (or_intror Hz)). simpl in Hf.
      destruct (compare z x =? 0); [by injection Hf | done].
Qed.

Lemma stable_sort_unique l out :
  Forall P l -> stableSortOf compare l out -> out = sort compare l.
Proof.
  intros Pl (Perm & Sorted & Stable).
  destruct (sort_is_stable l Pl) as (Perm' & Sorted' & Stable').
  symmetry. apply sorted_stable_unique.
  - by apply (Permutation_Forall Perm').
  - by rewrite <- Perm'.
  - done.
  - done.
  - intros x Hx. apply (Permutation_in _ (Permutation_sym Perm')) in Hx.
    by rewrite Stable, Stable'.
Qed.

End InsertionSort.

(** *** The order of the comparator *)

Lemma ltStr_irrefl a : ltStr a a = false.
Proof.
  induction a as [|x a IH]; simpl; [done |].
  by rewrite N.ltb_irrefl, N.eqb_refl, IH.
Qed.

Lemma ltStr_trans a b c :
  ltStr a b = true -> ltStr b c = true -> ltStr a c = true.
Proof.
  revert b c. induction a as [|x a IH]; intros [|y b] [|z c]; simpl; try done.
  destruct (N.ltb_spec x y), (N.eqb_spec x y), (N.ltb_spec y z),
    (N.eqb_spec y z), (N.ltb_spec x z), (N.eqb_spec x z);
    simpl; try done; try lia.
  apply IH.
Qed.

Lemma ltStr_total a b : ltStr a b = false -> ltStr b a = false -> a = b.
Proof.
  revert b. induction a as [|x a IH]; intros [|y b]; simpl; try done.
  destruct (N.ltb_spec x y), (N.eqb_spec x y), (N.ltb_spec y x),
    (N.eqb_spec y x); simpl; try done; try lia.
  intros E1 E2. subst. f_equal. by apply IH.
Qed.

Lemma lessThan_irrefl u : lessThan u u = false.
Proof.
  destruct u as [s|n|[t|]]; simpl; [apply ltStr_irrefl | lia | lia | done].
Qed.

Lemma lessThan_trans u v w :
  lessThan u v = true -> lessThan v w = true -> lessThan u w = true.
Proof.
  destruct u as [?|?|[?|]], v as [?|?|[?|]], w as [?|?|[?|]]; simpl;
    try done; try lia.
  apply ltStr_trans.
Qed.

Lemma lessThan_asym u v : lessThan u v = true -> lessThan v u = false.
Proof.
  intros E. destruct (lessThan v u) eqn:E'; [| done].
  by rewrite <- (lessThan_irrefl u), (lessThan_trans u v u).
Qed.

Lemma lessThan_total u v :
  comparable u v -> lessThan u v = false -> lessThan v u = false -> u = v.
Proof.
  destruct u as [?|?|[?|]], v as [?|?|[?|]]; simpl; try done.
  - intros _ E1 E2. f_equal. by apply ltStr_total.
  - intros _ E1 E2. f_equal. lia.
  - intros _ E1 E2. do 2 f_equal. lia.
Qed.

Lemma lessThan_not_between u v w :
  comparable u v ->
  lessThan v u = false -> lessThan w v = false -> lessThan w u = false.
Proof.
  intros C E1 E2. destruct (lessThan w u) eqn:E; [| done].
  destruct (lessThan u v) eqn:E3.
  - by rewrite (lessThan_trans w u v) in E2.
  - rewrite <- (lessThan_total u v C E3 E1) in E2. congruence.
Qed.

Section Comparator.
Context `{Host}.

Lemma sortValue_comparable actualColumn a b :
  sortable actualColumn a -> sortable actualColumn b ->
  comparable (sortValue actualColumn a) (sortValue actualColumn b).
Proof.
  unfold sortable, sortValue.
  destruct (bool_decide (actualColumn = str "ID")); [done |].
  destruct (isDateColumn actualColumn); [| done].
  destruct (Date_parse _), (Date_parse _); simpl; done.
Qed.

Lemma compareLeads_le_asc actualColumn a b :
  compareLeads actualColumn asc a b <= 0
  <-> lessThan (sortValue actualColumn b) (sortValue actualColumn a) = false.
Proof.
  unfold compareLeads.
  destruct (lessThan (sortValue actualColumn a) (sortValue actualColumn b)) eqn:E.
  - rewrite (lessThan_asym _ _ E). split; [done | lia].
  - destruct (lessThan (sortValue actualColumn b) (sortValue actualColumn a));
      split; (done || lia).
Qed.

Lemma compareLeads_le_desc actualColumn a b :
  compareLeads actualColumn desc a b <= 0
  <-> lessThan (sortValue actualColumn a) (sortValue actualColumn b) = false.
Proof.
  unfold compareLeads.
  destruct (lessThan (sortValue actualColumn a) (sortValue actualColumn b)) eqn:E.
  - split; [lia | done].
  - destruct (lessThan (sortValue actualColumn b) (sortValue actualColumn a));
      split; (done || lia).
Qed.

Lemma compareLeads_eq actualColumn d a b :
  compareLeads actualColumn d a b = 0
  <-> lessThan (sortValue actualColumn a) (sortValue actualColumn b) = false
      /\ lessThan (sortValue actualColumn b) (sortValue actualColumn a) = false.
Proof.
  unfold compareLeads.
  destruct (lessThan (sortValue actualColumn a) (sortValue actualColumn b)),
    (lessThan (sortValue actualColumn b) (sortValue actualColumn a)), d;
    split; (lia || (intros [? ?]; done) || done).
Qed.

Lemma compareLeads_flip actualColumn d a b :
  0 < compareLeads actualColumn d a b ->
  compareLeads actualColumn d b a <= 0.
Proof.
  destruct d.
  - rewrite compareLeads_le_asc. intros E.
    destruct (lessThan (sortValue actualColumn b) (sortValue actualColumn a))
      eqn:E'; [by apply lessThan_asym |].
    apply compareLeads_le_asc in E'. lia.
  - rewrite compareLeads_le_desc. intros E.
    destruct (lessThan (sortValue actualColumn a) (sortValue actualColumn b))
      eqn:E'; [by apply lessThan_asym |].
    apply compareLeads_le_desc in E'. lia.
Qed.

Lemma compareLeads_trans actualColumn d a b c :
  sortable actualColumn a -> sortable actualColumn b ->
  sortable actualColumn c ->
  compareLeads actualColumn d a b <= 0 ->
  compareLeads actualColumn d b c <= 0 ->
  compareLeads actualColumn d a c <= 0.
Proof.
  intros Sa Sb Sc. destruct d.
  - rewrite !compareLeads_le_asc. intros E1 E2.
    apply lessThan_not_between with (sortValue actualColumn b);
      [by apply sortValue_comparable | done | done].
  - rewrite !compareLeads_le_desc. intros E1 E2.
    apply lessThan_not_between with (sortValue actualColumn b);
      [by apply sortValue_comparable | done | done].
Qed.

Lemma compareLeads_equal actualColumn d z x y :
  sortable actualColumn z -> sortable actualColumn x ->
  sortable actualColumn y ->
  compareLeads actualColumn d z x = 0 ->
  compareLeads actualColumn d z y = 0 ->
  compareLeads actualColumn d x y = 0.
Proof.
  intros Sz Sx Sy. rewrite !compareLeads_eq. intros [X1 X2] [Y1 Y2].
  rewrite <- (lessThan_total _ _ (sortValue_comparable _ _ _ Sz Sx) X1 X2).
  rewrite <- (lessThan_total _ _ (sortValue_comparable _ _ _ Sz Sy) Y1 Y2).
  by rewrite lessThan_irrefl.
Qed.

(** On leads it orders, the comparator makes [sort] a stable sort. *)
Lemma sort_compareLeads_stable actualColumn d view :
  Forall (sortable actualColumn) view ->
  stableSortOf (compareLeads actualColumn d) view
               (sort (compareLeads actualColumn d) view).
Proof.
  apply sort_is_stable.
  - intros a b _ _. apply compareLeads_flip.
  - apply compareLeads_trans.
  - apply compareLeads_equal.
Qed.

(** On such leads the result of [sort] is the only stable sort there
    is, so that it is what every implementation of [Array.prototype.sort]
    returns. *)
Lemma sort_compareLeads_unique actualColumn d view out :
  Forall (sortable actualColumn) view ->
  stableSortOf (compareLeads actualColumn d) view out ->
  out = sort (compareLeads actualColumn d) view.
Proof.
  apply stable_sort_unique.
  - intros a b _ _. apply compareLeads_flip.
  - apply compareLeads_trans.
  - apply compareLeads_equal.
  - intros a _. apply compareLeads_eq. by rewrite lessThan_irrefl.
  - intros a b _ _ E1 E2. apply compareLeads_eq. destruct d.
    + apply compareLeads_le_asc in E1, E2. done.
    + apply compareLeads_le_desc in E1, E2. done.
Qed.

End Comparator.

(** *** The sort of [sortTable] *)

Lemma datesParse_sortable `{Host} actualColumn view :
  datesParse actualColumn view -> Forall (sortable actualColumn) view.
Proof.
  intros D. unfold datesParse in D. unfold sortable, sortValue.
  destruct (bool_decide (actualColumn = str "ID")).
  { apply List.Forall_forall. intros a _. discriminate. }
  destruct (isDateColumn actualColumn).
  - specialize (D eq_refl). eapply Forall_impl; [exact D |].
    intros a Ha. simpl in Ha. congruence.
  - apply List.Forall_forall. intros a _. discriminate.
Qed.

(** *** The comparator and the order of the column *)

Lemma StronglySorted_impl {A} (R S : A -> A -> Prop) l :
  (forall a b, R a b -> S a b) -> StronglySorted R l -> StronglySorted S l.
Proof.
  intros RS Sorted. induction Sorted as [|a l _ IH F]; constructor; [done |].
  eapply Forall_impl; [exact F | apply RS].
Qed.

Section ColumnOrder.
Context `{Host}.






End ColumnOrder.






(** ** CSV codec: export then parse *)

(** *** Strings *)

Lemma split_without sep s : ~ In sep s -> split sep s = [s].
Proof.
  induction s as [|c s IH]; intros Hs; simpl; [done |].
  destruct (N.eqb_spec c sep) as [->|Hc]; [by destruct Hs; left |].
  rewrite IH; [done |]. intros Hin. apply Hs. by right.
Qed.

Lemma split_app sep p s :
  ~ In sep p -> split sep (p ++ sep :: s) = p :: split sep s.
Proof.
  induction p as [|c p IH]; intros Hp; simpl.
  - by rewrite N.eqb_refl.
  - destruct (N.eqb_spec c sep) as [->|Hc]; [by destruct Hp; left |].
    rewrite IH; [done |]. intros Hin. apply Hp. by right.
Qed.

Lemma split_join sep parts :
  parts <> [] -> Forall (fun p => ~ In sep p) parts ->
  split sep (join [sep] parts) = parts.
Proof.
  intros Hne Hparts. induction Hparts as [|p parts Hp Hparts IH]; [done |].
  destruct parts as [|q parts].
  - simpl. by apply split_without.
  - change (join [sep] (p :: q :: parts))
      with (p ++ sep :: join [sep] (q :: parts)).
    rewrite split_app by done. f_equal. by apply IH.
Qed.

Lemma join_In sep parts c :
  In c (join [sep] parts) -> c = sep \/ exists p, In p parts /\ In c p.
Proof.
  induction parts as [|p parts IH]; [done |].
  destruct parts as [|q parts].
  - simpl. intros Hc. right. exists p. split; [by left | done].
  - change (join [sep] (p :: q :: parts))
      with (p ++ sep :: join [sep] (q :: parts)).
    rewrite in_app_iff. intros [Hc | [<- | Hc]].
    + right. exists p. split; [by left | done].
    + by left.
    + destruct (IH Hc) as [-> | (p' & Hp' & Hc')]; [by left |].
      right. exists p'. split; [by right | done].
Qed.

Lemma trimStart_blank s :
  forallb isWhiteSpace s = true -> trimStart s = [].
Proof.
  induction s as [|c s IH]; simpl; [done |].
  destruct (isWhiteSpace c); [exact IH | done].
Qed.

Lemma trimStart_nil s : trimStart s = [] -> forallb isWhiteSpace s = true.
Proof.
  induction s as [|c s IH]; simpl; [done |].
  destruct (isWhiteSpace c); [exact IH | done].
Qed.

Lemma trimStart_sub s c : In c (trimStart s) -> In c s.
Proof.
  induction s as [|x s IH]; simpl; [done |].
  destruct (isWhiteSpace x); [by right; apply IH | done].
Qed.

(** What [trimStart] leaves is empty or starts with a character that is
    not white space. *)
Lemma trimStart_head s :
  forallb isWhiteSpace (trimStart s) = true -> trimStart s = [].
Proof.
  induction s as [|c s IH]; simpl; [done |].
  destruct (isWhiteSpace c) eqn:E; [exact IH |].
  simpl. by rewrite E.
Qed.

Lemma trim_nil s : trim s = [] -> forallb isWhiteSpace s = true.
Proof.
  unfold trim, trimEnd. intros E.
  apply (f_equal (@rev N)) in E. rewrite rev_involutive in E. simpl in E.
  apply trimStart_nil in E. rewrite forallb_forall in E.
  apply trimStart_nil, trimStart_head, forallb_forall.
  intros c Hc. apply E. by apply in_rev in Hc.
Qed.

Lemma trim_visible s c :
  In c s -> isWhiteSpace c = false -> truthy (trim s) = true.
Proof.
  intros Hin Hc. destruct (trim s) eqn:E; [| done].
  apply trim_nil in E. rewrite forallb_forall in E.
  rewrite (E c Hin) in Hc. done.
Qed.

Lemma removeQuotes_plain s : ~ In QUOTE s -> removeQuotes s = s.
Proof.
  induction s as [|c s IH]; intros Hs; simpl; [done |].
  destruct (N.eqb_spec c QUOTE) as [->|Hc]; [by destruct Hs; left |].
  simpl. f_equal. apply IH. intros Hin. apply Hs. by right.
Qed.

Lemma doubleQuotes_plain s : ~ In QUOTE s -> doubleQuotes s = s.
Proof.
  induction s as [|c s IH]; intros Hs; simpl; [done |].
  destruct (N.eqb_spec c QUOTE) as [->|Hc]; [by destruct Hs; left |].
  simpl. f_equal. apply IH. intros Hin. apply Hs. by right.
Qed.

Lemma orEmpty_Some v : orEmpty (Some v) = v.
Proof. by destruct v. Qed.

(** *** The scanner on an exported line *)

Lemma scan_inside res cur v :
  ~ In QUOTE v ->
  fold_left scanChar v (Scanner res cur true) = Scanner res (cur ++ v) true.
Proof.
  revert cur. induction v as [|c v IH]; intros cur Hv; simpl.
  - by rewrite app_nil_r.
  - unfold scanChar at 2. simpl.
    destruct (N.eqb_spec c QUOTE) as [->|Hc]; [by destruct Hv; left |].
    rewrite andb_false_r, IH, <- app_assoc; [done |].
    intros Hin. apply Hv. by right.
Qed.

Lemma scan_wrapped res v :
  ~ In QUOTE v ->
  fold_left scanChar ([QUOTE] ++ v ++ [QUOTE]) (Scanner res [] false)
  = Scanner res v false.
Proof.
  intros Hv. simpl. unfold scanChar at 2. simpl.
  by rewrite fold_left_app, scan_inside.
Qed.

Lemma scan_fields vs res :
  vs <> [] -> Forall (fun v => ~ In QUOTE v) vs ->
  let s := fold_left scanChar
             (join [COMMA] (List.map (fun v => [QUOTE] ++ v ++ [QUOTE]) vs))
             (Scanner res [] false) in
  result s ++ [trim (current s)] = res ++ List.map trim vs.
Proof.
  intros Hne Hvs. cbv zeta. revert res.
  induction Hvs as [|v vs Hv Hvs IH]; intros res; [done |].
  destruct vs as [|w vs].
  - change (join [COMMA] (List.map _ [v])) with ([QUOTE] ++ v ++ [QUOTE]).
    by rewrite scan_wrapped.
  - change (join [COMMA] (List.map _ (v :: w :: vs)))
      with (([QUOTE] ++ v ++ [QUOTE]) ++ COMMA
            :: join [COMMA] (List.map (fun v => [QUOTE] ++ v ++ [QUOTE]) (w :: vs))).
    rewrite fold_left_app, scan_wrapped by done.
    change (fold_left scanChar (COMMA :: ?l) ?s)
      with (fold_left scanChar l (scanChar s COMMA)).
    change (scanChar (Scanner res v false) COMMA)
      with (Scanner (res ++ [trim v]) [] false).
    rewrite IH by done. simpl. by rewrite <- app_assoc.
Qed.

(** *** Lists *)

Lemma filter_all {A} (p : A -> bool) (l : list A) :
  (forall x, In x l -> p x = true) -> List.filter p l = l.
Proof.
  induction l as [|x l IH]; intros Hp; simpl; [done |].
  rewrite (Hp x) by (by left). f_equal. apply IH. intros y Hy. apply Hp. by right.
Qed.

Lemma filter_none {A} (p : A -> bool) (l : list A) :
  (forall x, In x l -> p x = false) -> List.filter p l = [].
Proof.
  induction l as [|x l IH]; intros Hp; simpl; [done |].
  rewrite (Hp x) by (by left). apply IH. intros y Hy. apply Hp. by right.
Qed.

Lemma filter_split_perm {A} (p : A -> bool) (l : list A) :
  Permutation (List.filter p l ++ List.filter (fun x => negb (p x)) l) l.
Proof.
  induction l as [|x l IH]; simpl; [done |].
  destruct (p x); simpl.
  - by constructor.
  - rewrite <- Permutation_middle. by constructor.
Qed.

(** [sort] leaves a sorted list as it is. *)
Lemma sort_sorted_same {A} (compare : A -> A -> Z) l :
  StronglySorted (fun a b => compare a b <= 0) l -> sort compare l = l.
Proof.
  intros S. induction S as [|x l _ IH F]; simpl; [done |].
  rewrite IH. destruct l as [|y l]; [done |].
  apply Forall_cons_iff in F as [F _]. simpl.
  destruct (0 <? compare x y) eqn:E; [| done].
  apply Z.ltb_lt in E. lia.
Qed.

(** *** The order of the property names *)

Lemma index_sorted names :
  StronglySorted (fun a b => indexOf a - indexOf b <= 0)
    (sort (fun a b => indexOf a - indexOf b) names).
Proof.
  apply (sort_sorted (fun a b => indexOf a - indexOf b) (fun _ => True)).
  - intros a b _ _. lia.
  - intros a b c _ _ _. lia.
  - by apply List.Forall_forall.
Qed.

Lemma propertyOrder_perm names : Permutation (propertyOrder names) names.
Proof.
  unfold propertyOrder. rewrite <- (filter_split_perm isIndex names) at 3.
  apply Permutation_app_tail. symmetry. apply sort_perm.
Qed.

Lemma propertyOrder_In names h : In h (propertyOrder names) <-> In h names.
Proof.
  split; apply Permutation_in;
    [apply propertyOrder_perm | symmetry; apply propertyOrder_perm].
Qed.

Lemma propertyOrder_NoDup names : NoDup names -> NoDup (propertyOrder names).
Proof.
  intros Hnd. by rewrite propertyOrder_perm.
Qed.

Lemma propertyOrder_Forall (P : jsstr -> Prop) names :
  Forall P names -> Forall P (propertyOrder names).
Proof.
  apply Permutation_Forall. symmetry. apply propertyOrder_perm.
Qed.

(** Names that are no array indices are listed as created. *)
Lemma propertyOrder_plain names :
  Forall (fun h => isIndex h = false) names -> propertyOrder names = names.
Proof.
  intros Hn. rewrite List.Forall_forall in Hn. unfold propertyOrder.
  rewrite filter_none by done. simpl. apply filter_all.
  intros h Hh. by rewrite (Hn h Hh).
Qed.

(** Names listed in property order are in property order. *)
Lemma propertyOrder_idem names :
  propertyOrder (propertyOrder names) = propertyOrder names.
Proof.
  unfold propertyOrder at 1.
  set (indices := sort (fun a b => indexOf a - indexOf b)
                    (List.filter isIndex names)).
  set (others := List.filter (fun name => negb (isIndex name)) names).
  assert (Hi : forall h, In h indices -> isIndex h = true).
  { intros h Hh. apply (Permutation_in _ (Permutation_sym (sort_perm _ _))) in Hh.
    by apply filter_In in Hh as [_ ?]. }
  assert (Ho : forall h, In h others -> isIndex h = false).
  { intros h Hh. apply filter_In in Hh as [_ Hh]. by apply negb_true_iff. }
  change (propertyOrder names) with (indices ++ others).
  rewrite !List.filter_app.
  rewrite (filter_all isIndex indices) by done.
  rewrite (filter_none isIndex others) by done.
  rewrite (filter_none _ indices) by (intros h Hh; by rewrite (Hi h Hh)).
  rewrite (filter_all _ others) by (intros h Hh; by rewrite (Ho h Hh)).
  rewrite app_nil_r. simpl. f_equal.
  apply sort_sorted_same, index_sorted.
Qed.

(** *** Records *)

Lemma get_In name r v : get name r = Some v -> In (name, v) r.
Proof.
  induction r as [|[k w] r IH]; simpl; [done |].
  destruct (decide (k = name)) as [->|]; [intros [= ->]; by left |].
  intros E. right. by apply IH.
Qed.

Lemma get_own name r :
  In name (List.map fst r) -> exists v, get name r = Some v.
Proof.
  induction r as [|[k w] r IH]; simpl; [done |].
  destruct (decide (k = name)) as [->|Hk]; [by eauto |].
  intros [E | Hin]; [done | by apply IH].
Qed.

Lemma get_not_own name r : ~ In name (List.map fst r) -> get name r = None.
Proof.
  induction r as [|[k w] r IH]; simpl; [done |].
  intros Hn. destruct (decide (k = name)) as [->|Hk]; [destruct Hn; by left |].
  apply IH. intros Hin. apply Hn. by right.
Qed.

Lemma keys_In name r : In name (keys r) <-> In name (List.map fst r).
Proof. apply propertyOrder_In. Qed.

Lemma get_key name r : In name (keys r) -> exists v, get name r = Some v.
Proof. rewrite keys_In. apply get_own. Qed.

Lemma get_no_key name r : ~ In name (keys r) -> get name r = None.
Proof. rewrite keys_In. apply get_not_own. Qed.

Lemma get_reorder hs r name :
  get name (reorder hs r)
  = if decide (name ∈ hs) then Some (orEmpty (get name r)) else None.
Proof.
  induction hs as [|h hs IH]; simpl.
  - destruct (decide (name ∈ [])) as [E|]; [by apply elem_of_nil in E | done].
  - destruct (decide (h = name)) as [->|Hh].
    + destruct (decide (name ∈ name :: hs)) as [|N]; [done |].
      destruct N. by left.
    + rewrite IH. destruct (decide (name ∈ hs)) as [Hin|Hin].
      * destruct (decide (name ∈ h :: hs)) as [|N]; [done |].
        destruct N. by right.
      * destruct (decide (name ∈ h :: hs)) as [E|]; [| done].
        apply elem_of_cons in E as [E|E]; done.
Qed.

(** Reordering the properties does not change what a record holds. *)
Lemma reorder_same_fields hs r :
  (forall k, In k (keys r) <-> In k hs) ->
  forall name, get name (reorder hs r) = get name r.
Proof.
  intros Hk name. rewrite get_reorder.
  destruct (decide (name ∈ hs)) as [Hin|Hin].
  - apply list_elem_of_In, Hk in Hin. destruct (get_key _ _ Hin) as [v ->].
    by rewrite orEmpty_Some.
  - symmetry. apply get_no_key. rewrite Hk. by rewrite <- list_elem_of_In.
Qed.

Lemma reorder_names hs r : List.map fst (reorder hs r) = hs.
Proof. unfold reorder. rewrite List.map_map. apply map_id. Qed.

Lemma keys_reorder hs r : keys (reorder hs r) = propertyOrder hs.
Proof. unfold keys. by rewrite reorder_names. Qed.

Lemma reorder_same_order r :
  NoDup (List.map fst r) -> reorder (List.map fst r) r = r.
Proof.
  induction r as [|[k v] r IH]; intros Hnd; [done |].
  simpl in Hnd. apply NoDup_cons in Hnd as [Hk Hnd].
  unfold reorder. simpl. destruct (decide (k = k)); [| done].
  rewrite orEmpty_Some. f_equal.
  rewrite <- (IH Hnd) at 2. unfold reorder. apply map_ext_in.
  intros h Hh. destruct (decide (k = h)) as [->|]; [| done].
  destruct Hk. by apply list_elem_of_In.
Qed.

Lemma assign_fresh name v row :
  ~ In name (List.map fst row) -> assign name v row = row ++ [(name, v)].
Proof.
  induction row as [|[k w] row IH]; simpl; [done |].
  intros Hn. destruct (decide (k = name)) as [->|]; [destruct Hn; by left |].
  f_equal. apply IH. intros Hin. apply Hn. by right.
Qed.

(** A new name becomes the last property, but for [__proto__], which
    becomes none. *)
Lemma set_fresh name v row :
  ~ In name (List.map fst row) ->
  set name v row = if decide (name = PROTO) then row else row ++ [(name, v)].
Proof.
  intros Hn. unfold set. destruct (decide (name = PROTO)) as [->|].
  - by rewrite (get_not_own _ _ Hn).
  - by apply assign_fresh.
Qed.

Lemma fillRow_fresh hs i vals row :
  NoDup hs -> (forall h, In h hs -> ~ In h (List.map fst row)) ->
  (length hs <= length (drop i vals))%nat ->
  fillRow hs i vals row
  = row ++ List.filter (fun kv => negb (bool_decide (fst kv = PROTO)))
             (combine hs (drop i vals)).
Proof.
  revert i row. induction hs as [|h hs IH]; intros i row Hnd Hfresh Hlen.
  - simpl. by rewrite app_nil_r.
  - apply NoDup_cons in Hnd as [Hh Hnd].
    destruct (drop i vals) as [|v rest] eqn:D; [simpl in Hlen; lia |].
    assert (Hi : vals !! i = Some v).
    { rewrite <- (Nat.add_0_r i), <- lookup_drop, D. done. }
    assert (D' : drop (S i) vals = rest).
    { rewrite (drop_S _ _ _ Hi) in D. by injection D. }
    simpl fillRow. unfold valueAt. rewrite Hi, orEmpty_Some.
    rewrite set_fresh by (apply Hfresh; by left).
    simpl combine. simpl List.filter.
    destruct (decide (h = PROTO)) as [E|E].
    + rewrite (bool_decide_eq_true_2 _ E). simpl.
      rewrite IH, D'; [done | done | | rewrite D'; simpl in Hlen; lia].
      intros h' Hh'. apply Hfresh. by right.
    + rewrite (bool_decide_eq_false_2 _ E). simpl.
      rewrite IH, D', <- app_assoc;
        [done | done | | rewrite D'; simpl in Hlen; lia].
      intros h' Hh'. rewrite map_app, in_app_iff. simpl.
      intros [Hin | [-> | []]].
      * apply (Hfresh h'); [by right | done].
      * apply Hh. by apply list_elem_of_In.
Qed.

Lemma fillRow_values hs (f : jsstr -> jsstr) :
  NoDup hs ->
  fillRow hs 0 (List.map f hs) [] = List.map (fun h => (h, f h)) (fieldNames hs).
Proof.
  intros Hnd. rewrite fillRow_fresh; [| done | intros h _ [] | ].
  - rewrite drop_0. simpl. clear Hnd. unfold fieldNames.
    induction hs as [|h hs IH]; simpl; [done |].
    destruct (negb (bool_decide (h = PROTO))); simpl; by rewrite IH.
  - rewrite drop_0. by rewrite length_map.
Qed.

Lemma fieldNames_all hs : ~ In PROTO hs -> fieldNames hs = hs.
Proof.
  intros Hn. apply filter_all. intros h Hh. apply negb_true_iff.
  apply bool_decide_eq_false. intros ->. done.
Qed.

(** *** Export then parse *)

Lemma In_join sep parts p c :
  In p parts -> In c p -> In c (join sep parts).
Proof.
  induction parts as [|q parts IH]; [done |].
  intros [-> | Hp] Hc.
  - destruct parts; simpl; [done |]. rewrite in_app_iff. by left.
  - destruct parts as [|q' parts]; [done |].
    change (join sep (q :: q' :: parts))
      with (q ++ sep ++ join sep (q' :: parts)).
    rewrite !in_app_iff. right. right. by apply IH.
Qed.

Lemma plainValue_no_quote v : plainValue v -> ~ In QUOTE v.
Proof.
  intros [_ Hv] Hin. rewrite List.Forall_forall in Hv.
  by destruct (Hv _ Hin).
Qed.

Section Exported.
Context `{Host}.

Lemma quoteField_plain r h :
  plainValue (fieldText h r) ->
  quoteField r h = [QUOTE] ++ fieldText h r ++ [QUOTE].
Proof.
  intros Hv. unfold quoteField.
  rewrite doubleQuotes_plain; [done |]. by apply plainValue_no_quote.
Qed.

(** A line written by [exportToCSV] reads back as the values written. *)
Lemma parseCSVLine_exported hs r :
  hs <> [] -> Forall (fun h => plainValue (fieldText h r)) hs ->
  parseCSVLine (join [COMMA] (List.map (quoteField r) hs))
  = List.map (fun h => fieldText h r) hs.
Proof.
  intros Hne Hr. rewrite List.Forall_forall in Hr. unfold parseCSVLine.
  rewrite (map_ext_in _ (fun h => [QUOTE] ++ fieldText h r ++ [QUOTE]))
    by (intros h Hh; by apply quoteField_plain, Hr).
  rewrite <- (List.map_map (fun h => fieldText h r)
                (fun v => [QUOTE] ++ v ++ [QUOTE])).
  pose proof (scan_fields (List.map (fun h => fieldText h r) hs) []) as S.
  cbv zeta in S. rewrite S.
  - simpl. rewrite List.map_map. apply map_ext_in.
    intros h Hh. by destruct (Hr h Hh).
  - by destruct hs.
  - apply List.Forall_forall. intros v Hv. apply in_map_iff in Hv as (h & <- & Hh).
    by apply plainValue_no_quote, Hr.
Qed.

Lemma exported_line_visible hs r :
  hs <> [] ->
  truthy (trim (join [COMMA] (List.map (quoteField r) hs))) = true.
Proof.
  intros Hne. destruct hs as [|h hs]; [done |].
  apply trim_visible with QUOTE; [| done].
  apply In_join with (quoteField r h); by left.
Qed.

Lemma exported_line_one_line hs r :
  Forall (fun h => plainValue (fieldText h r)) hs ->
  ~ In NEWLINE (join [COMMA] (List.map (quoteField r) hs)).
Proof.
  intros Hr Hin. rewrite List.Forall_forall in Hr.
  apply join_In in Hin as [E | (p & Hp & Hin)]; [done |].
  apply in_map_iff in Hp as (h & <- & Hh).
  rewrite quoteField_plain in Hin by (by apply Hr).
  rewrite !in_app_iff in Hin. destruct Hin as [[E|[]] | [Hin | [E|[]]]];
    try done.
  destruct (Hr h Hh) as [_ Hv].
  rewrite List.Forall_forall in Hv. by destruct (Hv _ Hin).
Qed.

Lemma header_line_visible hs :
  visibleNames hs -> Forall plainName hs ->
  truthy (trim (join [COMMA] hs)) = true.
Proof.
  intros [Hne Hone] Hhs. destruct hs as [|h [|h' hs]]; [done | |].
  - apply Forall_cons_iff in Hhs as [(Ht & _) _]. simpl. rewrite Ht.
    destruct h; [done | done].
  - apply trim_visible with COMMA; [| done].
    change (join [COMMA] (h :: h' :: hs))
      with (h ++ COMMA :: join [COMMA] (h' :: hs)).
    rewrite in_app_iff. right. by left.
Qed.

Lemma header_line_one_line hs :
  Forall plainName hs -> ~ In NEWLINE (join [COMMA] hs).
Proof.
  intros Hhs Hin. apply join_In in Hin as [E | (h & Hh & Hin)]; [done |].
  rewrite List.Forall_forall in Hhs. destruct (Hhs h Hh) as (_ & Hc).
  rewrite List.Forall_forall in Hc. by destruct (Hc _ Hin) as (_ & _ & ?).
Qed.

Lemma headerNames_exported hs :
  hs <> [] -> Forall plainName hs -> headerNames (join [COMMA] hs) = hs.
Proof.
  intros Hne Hhs. unfold headerNames. rewrite split_join; [| done |].
  - rewrite <- (map_id hs) at 2. apply map_ext_in. intros h Hh.
    rewrite List.Forall_forall in Hhs. destruct (Hhs h Hh) as (-> & Hc).
    apply removeQuotes_plain. intros Hin.
    rewrite List.Forall_forall in Hc. by destruct (Hc _ Hin) as (_ & ? & _).
  - eapply Forall_impl; [exact Hhs |]. intros h (_ & Hc) Hin.
    rewrite List.Forall_forall in Hc. by destruct (Hc _ Hin) as (? & _ & _).
Qed.

(** What [parseCSV] reads from the text [exportToCSV] writes under plain
    field names for leads whose written values are plain. *)
Lemma parseCSV_exported hs rs :
  visibleNames hs -> NoDup hs -> Forall plainName hs ->
  rs <> [] ->
  Forall (fun r => Forall (fun h => plainValue (fieldText h r)) hs) rs ->
  parseCSV (join [NEWLINE]
              (join [COMMA] hs
               :: List.map (fun lead => join [COMMA] (List.map (quoteField lead) hs))
                    rs))
  = List.map (fun r => List.map (fun h => (h, fieldText h r)) (fieldNames hs))
      rs.
Proof.
  intros Hvis Hnd Hhs Hrs Hvals. pose proof Hvis as [Hne _].
  unfold parseCSV, nonBlankLines.
  rewrite split_join; [| done |].
  2:{ constructor; [by apply header_line_one_line |].
      apply List.Forall_forall. intros line Hl.
      apply in_map_iff in Hl as (r & <- & Hr).
      rewrite List.Forall_forall in Hvals. by apply exported_line_one_line, Hvals. }
  rewrite filter_all.
  2:{ intros line [<- | Hl]; [by apply header_line_visible |].
      apply in_map_iff in Hl as (r & <- & Hr). by apply exported_line_visible. }
  destruct rs as [|r rs]; [done |].
  change (length (_ :: List.map _ (r :: rs)) <? 2)%nat with false. cbv iota.
  change (hd [] (?x :: _)) with x. change (tl (_ :: ?l)) with l.
  rewrite headerNames_exported, fold_parseRow by done.
  rewrite app_nil_l, filter_all.
  - rewrite List.map_map. apply map_ext_in. intros lead Hlead.
    rewrite List.Forall_forall in Hvals.
    rewrite parseCSVLine_exported by auto.
    by rewrite (fillRow_values hs (fun h => fieldText h lead)).
  - intros line Hl. apply in_map_iff in Hl as (lead & <- & Hlead).
    rewrite List.Forall_forall in Hvals.
    rewrite parseCSVLine_exported by auto.
    apply bool_decide_eq_true. by rewrite length_map.
Qed.

(** The text written for a property the lead has is its value. *)
Lemma fieldText_own h r v : get h r = Some v -> fieldText h r = v.
Proof. intros E. unfold fieldText. by rewrite E. Qed.

Lemma reorder_written hs r :
  (forall h, In h hs -> In h (List.map fst r)) ->
  List.map (fun h => (h, fieldText h r)) hs = reorder hs r.
Proof.
  intros Hown. unfold reorder. apply map_ext_in. intros h Hh.
  destruct (get_own h r (Hown h Hh)) as [v E].
  by rewrite (fieldText_own _ _ _ E), E, orEmpty_Some.
Qed.

Lemma plainValues_written hs r :
  (forall h, In h hs -> In h (List.map fst r)) -> plainValues r ->
  Forall (fun h => plainValue (fieldText h r)) hs.
Proof.
  intros Hown Hr. apply List.Forall_forall. intros h Hh.
  destruct (get_own h r (Hown h Hh)) as [v E].
  rewrite (fieldText_own _ _ _ E). apply get_In in E.
  unfold plainValues in Hr. rewrite List.Forall_forall in Hr.
  apply (Hr (h, v) E).
Qed.

End Exported.

(** C1 (as the code has it).  Take a non-empty sequence of records with
    the field names of the first one, listed [names] by [Object.keys].
    Let the names be plain, none of them [__proto__], and such that the
    header line is not blank (there is a name, and a single name is not
    empty), and let the field values be plain.  Then [parseCSV] applied
    to the text [exportToCSV] writes returns the records, each with its
    fields in the order [names]: records that hold the same fields; the
    same objects, where every record lists its fields as the first does;
    and the very sequence, where every record was built with its fields
    in that order. *)
Theorem parseCSV_exportToCSV_plain `{Host} (first : record)
    (rest : list record) :
  let names := keys first in
  NoDup (List.map fst first) ->
  visibleNames names ->
  Forall plainName names ->
  ~ In PROTO names ->
  Forall (fun r => forall k, In k (keys r) <-> In k names) rest ->
  Forall plainValues (first :: rest) ->
  exists csv,
    exportToCSV (first :: rest) = Some csv
    /\ parseCSV csv = List.map (reorder names) (first :: rest)
    /\ Forall2 (fun out r => forall name, get name out = get name r)
               (parseCSV csv) (first :: rest)
    /\ (Forall (fun r => keys r = names) rest ->
        Forall2 sameObject (parseCSV csv) (first :: rest))
    /\ (Forall (fun r => List.map fst r = names) (first :: rest) ->
        parseCSV csv = first :: rest).
Proof.
  intros names Hnd Hvis Hnames Hproto Hsame Hvals.
  assert (Hnd' : NoDup names) by (by apply propertyOrder_NoDup).
  assert (Hfields : forall r, In r (first :: rest) ->
                      forall k, In k (keys r) <-> In k names).
  { intros r [<- | Hr]; [done |].
    rewrite List.Forall_forall in Hsame. by apply Hsame. }
  assert (Hown : forall r, In r (first :: rest) ->
                   forall h, In h names -> In h (List.map fst r)).
  { intros r Hr h Hh. by apply keys_In, (Hfields r Hr). }
  assert (E : parseCSV (join [NEWLINE]
                (join [COMMA] names
                 :: List.map (fun lead =>
                      join [COMMA] (List.map (quoteField lead) names))
                      (first :: rest)))
              = List.map (reorder names) (first :: rest)).
  { rewrite parseCSV_exported; [| done | done | done | done |].
    - rewrite fieldNames_all by done. apply map_ext_in. intros r Hr.
      apply reorder_written. by apply Hown.
    - apply List.Forall_forall. intros r Hr. apply plainValues_written.
      + by apply Hown.
      + rewrite List.Forall_forall in Hvals. by apply Hvals. }
  eexists. split; [reflexivity |]. fold names. rewrite E.
  split; [done | split; [| split]].
  - apply Forall2_fmap_l, Forall2_same_length_lookup_2; [done |].
    intros i out r Ho Hr. rewrite Ho in Hr. injection Hr as ->.
    intros name. apply reorder_same_fields, Hfields.
    by apply list_elem_of_In, list_elem_of_lookup_2 with i.
  - intros Horder.
    apply Forall2_fmap_l, Forall2_same_length_lookup_2; [done |].
    intros i out r Ho Hr. rewrite Ho in Hr. injection Hr as ->.
    assert (Hin : In r (first :: rest))
      by (by apply list_elem_of_In, list_elem_of_lookup_2 with i).
    split.
    + rewrite keys_reorder.
      assert (I : propertyOrder names = names) by apply propertyOrder_idem.
      rewrite I. destruct Hin as [<- | Hin]; [done |].
      rewrite List.Forall_forall in Horder. symmetry. by apply Horder.
    + by apply reorder_same_fields, Hfields.
  - intros Hbuilt. rewrite <- (map_id (first :: rest)) at 2.
    apply map_ext_in. intros r Hr.
    rewrite List.Forall_forall in Hbuilt. rewrite <- (Hbuilt r Hr).
    apply reorder_same_order. by rewrite (Hbuilt r Hr).
Qed.

(** Two leads with a comma in a value; and a lead with an array index
    and the empty string among its names, which comes back with the
    index first. *)
Lemma parseCSV_exportToCSV_plain_witness :
  let first := [(str "ID", str "1"); (str "Lead Name", str "Lee, Ann")] in
  let second := [(str "ID", str "2"); (str "Lead Name", str "Bob")] in
  let odd := [(str "b", str "x"); ([], str "y"); (str "1", str "z")] in
  parseCSV <$> exportToCSV (H := Sample.host) [first; second]
  = Some [first; second]
  /\ parseCSV <$> exportToCSV (H := Sample.host) [odd]
     = Some [[(str "1", str "z"); (str "b", str "x"); ([], str "y")]].
Proof.
  intros first second odd. split.
  - destruct (parseCSV_exportToCSV_plain (H := Sample.host) first [second])
      as (csv & E & _ & _ & _ & Same).
    + apply (bool_decide_unpack _). by vm_compute.
    + split; discriminate.
    + repeat constructor; try done; apply (bool_decide_unpack _); by vm_compute.
    + rewrite <- list_elem_of_In. apply (bool_decide_unpack _). by vm_compute.
    + constructor; [| constructor]. intros k. reflexivity.
    + repeat constructor; try done; apply (bool_decide_unpack _); by vm_compute.
    + rewrite E. simpl. f_equal. apply Same. by repeat constructor.
  - destruct (parseCSV_exportToCSV_plain (H := Sample.host) odd [])
      as (csv & E & P & _).
    + apply (bool_decide_unpack _). by vm_compute.
    + split; discriminate.
    + repeat constructor; try done; apply (bool_decide_unpack _); by vm_compute.
    + rewrite <- list_elem_of_In. apply (bool_decide_unpack _). by vm_compute.
    + constructor.
    + repeat constructor; try done; apply (bool_decide_unpack _); by vm_compute.
    + rewrite E. simpl. f_equal. exact P.
Defined.

(** C1 as stated fails: a double quote in a value is lost, white space
    around a value is lost, a comma in a field name splits the name,
    records without fields give no line at all, and a field named
    [__proto__] (as [JSON.parse] can make one) is not read back. *)
Lemma parseCSV_exportToCSV_counterexample :
  let quoted :=
    [[(str "Name", str "say " ++ [QUOTE] ++ str "hi" ++ [QUOTE])]] in
  let padded := [[(str "Name", str " Ann")]] in
  let comma := [[(str "Last, First", str "Lee, Ann")]] in
  let bare : list record := [[]] in
  let proto := [[(str "Name", str "Ann"); (PROTO, str "x")]] in
  parseCSV <$> exportToCSV (H := Sample.host) quoted
  = Some [[(str "Name", str "say hi")]]
  /\ parseCSV <$> exportToCSV (H := Sample.host) quoted <> Some quoted
  /\ parseCSV <$> exportToCSV (H := Sample.host) padded <> Some padded
  /\ parseCSV <$> exportToCSV (H := Sample.host) comma <> Some comma
  /\ parseCSV <$> exportToCSV (H := Sample.host) bare <> Some bare
  /\ parseCSV <$> exportToCSV (H := Sample.host) proto
     = Some [[(str "Name", str "Ann")]].
Proof. vm_compute. repeat split; discriminate. Qed.

(** ** Examples *)

(** A quoted field keeps its comma. *)
Example parseCSVLine_quoted :
  parseCSVLine (str "a," ++ [QUOTE] ++ str "b,c" ++ [QUOTE] ++ str ",d")
  = [str "a"; str "b,c"; str "d"].
Proof. reflexivity. Qed.

(** A line with one field too many is dropped. *)
Example parseCSV_drops_long_row :
  parseCSV (str "ID,Stage" ++ [NEWLINE] ++ str "1,NEW" ++ [NEWLINE]
            ++ str "2,NEW,extra" ++ [NEWLINE] ++ str "3,CUSTOMER")
  = [[(str "ID", str "1"); (str "Stage", str "NEW")];
     [(str "ID", str "3"); (str "Stage", str "CUSTOMER")]].
Proof. reflexivity. Qed.

(** The stage filter and the search term both apply. *)
Example filterLeads_both_criteria :
  let smith := [(str "ID", str "1"); (str "Stage", str "NEW");
                (str "Lead Name", str "Lead Smith")] in
  let bob := [(str "ID", str "2"); (str "Stage", str "NEW");
              (str "Lead Name", str "Bob")] in
  let jones := [(str "ID", str "3"); (str "Stage", str "CUSTOMER");
                (str "Lead Name", str "Lead Jones")] in
  let c := Controls (Some (str "lead")) (Some (str "NEW")) None None None in
  let st := State [smith; bob; jones] [] 1 10 [] asc None
                  (Display [] (0, 0) 0) in
  filteredLeads (final (filterLeads (H := Sample.host) c st)) = [smith].
Proof. reflexivity. Qed.

(** Sorting by [sort-id] compares numbers, and a second sort reverses. *)
Example sortTable_by_id_twice :
  let lead (id : string) : record := [(str "ID", str id)] in
  let st := State [] [lead "10"%string; lead "9"%string; lead "100"%string] 1 10 [] asc None
                  (Display [] (0, 0) 0) in
  let once := sortTable (H := Sample.host) (str "sort-id") st in
  let twice := sortTable (H := Sample.host) (str "sort-id") once in
  filteredLeads once = [lead "9"%string; lead "10"%string; lead "100"%string]
  /\ filteredLeads twice = [lead "100"%string; lead "10"%string; lead "9"%string]
  /\ sortDirection twice = desc.
Proof. repeat split. Qed.

(** Deleting compares the stored text: [7] does not delete [07]. *)
Example deleteLead_compares_text :
  let lead (id : string) : record := [(str "ID", str id)] in
  let c := Controls None None None None None in
  let st := State [lead "7"%string; lead "07"%string; lead "8"%string] [] 1 10 [] asc None
                  (Display [] (0, 0) 0) in
  leads (final (deleteLead (H := Sample.host) c true (Some (str "7")) st))
  = [lead "07"%string; lead "8"%string].
Proof. reflexivity. Qed.

(** A store that holds an array with [null] in it: building the manager
    leaves what this development follows. *)
Example init_outside :
  outcome (init (H := Sample.host) (fresh (Some (str "[null]")))) = Outside.
Proof. reflexivity. Qed.

(** The names that are array indices: decimal numerals without a leading
    zero, below [2^32 - 1]. *)
Example arrayIndex_names :
  List.map arrayIndex
    [str "0"; str "7"; str "10"; str "4294967294"; str "4294967295";
     str "07"; str "-1"; str "1e3"; str "1.5"; str " 1"; []]
  = [Some 0; Some 7; Some 10; Some 4294967294; None; None; None; None;
     None; None; None]%N.
Proof. reflexivity. Qed.

(** A header of [__proto__] and an array index: the first makes no
    field, the second is listed first. *)
Example parseCSV_odd_names :
  let csv := str "b,__proto__,1" ++ [NEWLINE] ++ str "x,y,z" in
  parseCSV csv = [[(str "b", str "x"); (str "1", str "z")]]
  /\ List.map keys (parseCSV csv) = [[str "1"; str "b"]]
  /\ exportToCSV (H := Sample.host) (parseCSV csv)
     = Some (str "1,b" ++ [NEWLINE] ++ [QUOTE] ++ str "z" ++ [QUOTE]
             ++ str "," ++ [QUOTE] ++ str "x" ++ [QUOTE]).
Proof. repeat split. Qed.

(** Two columns of one name: the later one gives the value, the earlier
    one the place. *)
Example parseCSV_two_columns_of_one_name :
  parseCSV (str "a,b,a" ++ [NEWLINE] ++ str "1,2,3")
  = [[(str "a", str "3"); (str "b", str "2")]].
Proof. reflexivity. Qed.

(** A lead without a field the first lead has under a name of
    [Object.prototype]: the export writes what the lead inherits. *)
Example exportToCSV_inherited :
  exportToCSV (H := Sample.host)
    [[(str "valueOf", str "1"); (str "__proto__", str "2")]; []]
  = Some (str "valueOf,__proto__" ++ [NEWLINE]
          ++ [QUOTE] ++ str "1" ++ [QUOTE] ++ str ","
          ++ [QUOTE] ++ str "2" ++ [QUOTE] ++ [NEWLINE]
          ++ [QUOTE] ++ str "function valueOf() { [native code] }" ++ [QUOTE]
          ++ str "," ++ [QUOTE] ++ str "[object Object]" ++ [QUOTE]).
Proof. reflexivity. Qed.

(** Importing with [skipDuplicates] drops the second of two incoming
    leads with one new [ID]. *)
Example importLoop_duplicate_in_batch :
  let lead (id : string) : record := [(str "ID", str id)] in
  importLoop true [lead "1"%string] [lead "2"%string; lead "1"%string; lead "2"%string; lead "3"%string]
  = Tally [lead "1"%string; lead "2"%string; lead "3"%string] 2 2.
Proof. reflexivity. Qed.


(** * Further properties *)

(** ** CSV codec: what [parseCSVLine] returns *)

Lemma split_nonempty sep s : split sep s <> [].
Proof.
  destruct s as [|c s]; simpl; [done |].
  destruct (c =? sep)%N; [done |]. by destruct (split sep s).
Qed.

Lemma split_parts_without sep s p : In p (split sep s) -> ~ In sep p.
Proof.
  revert p. induction s as [|c s IH]; intros p; simpl.
  - intros [<- | []]. by intros [].
  - destruct (N.eqb_spec c sep) as [->|Hc].
    + intros [<- | Hp]; [by intros [] | by apply IH].
    + pose proof (split_nonempty sep s).
      destruct (split sep s) as [|w ws]; [done |].
      intros [<- | Hp].
      * intros [E | Hin]; [done |]. apply (IH w); [by left | done].
      * apply IH. by right.
Qed.

Lemma split_parts_sub sep s p c : In p (split sep s) -> In c p -> In c s.
Proof.
  revert p. induction s as [|x s IH]; intros p; simpl.
  - by intros [<- | []].
  - destruct (x =? sep)%N.
    + intros [<- | Hp]; [done |]. intros Hc. right. by apply (IH p).
    + pose proof (split_nonempty sep s).
      destruct (split sep s) as [|w ws]; [done |].
      intros [<- | Hp].
      * intros [E | Hin]; [by left |]. right. apply (IH w); [by left | done].
      * intros Hc. right. apply (IH p); [by right | done].
Qed.

Lemma scan_unquoted line res cur :
  ~ In QUOTE line ->
  let s := fold_left scanChar line (Scanner res cur false) in
  result s ++ [trim (current s)]
  = res ++ match split COMMA line with
           | w :: ws => trim (cur ++ w) :: List.map trim ws
           | [] => [trim cur]
           end.
Proof.
  cbv zeta. revert res cur.
  induction line as [|c line IH]; intros res cur Hq.
  - simpl. by rewrite app_nil_r.
  - assert (Hc : c <> QUOTE) by (intros ->; apply Hq; by left).
    assert (Hq' : ~ In QUOTE line) by (intros Hin; apply Hq; by right).
    pose proof (split_nonempty COMMA line) as Hne.
    assert (Step : scanChar (Scanner res cur false) c
                   = if (c =? COMMA)%N then Scanner (res ++ [trim cur]) [] false
                     else Scanner res (cur ++ [c]) false).
    { unfold scanChar. simpl. destruct (N.eqb_spec c QUOTE) as [E|_]; [done |].
      by rewrite andb_true_r. }
    change (fold_left scanChar (c :: line) ?s)
      with (fold_left scanChar line (scanChar s c)).
    rewrite Step. simpl split.
    destruct (c =? COMMA)%N; rewrite IH by done;
      destruct (split COMMA line) as [|w ws]; try done.
    + by rewrite app_nil_r, <- app_assoc.
    + by rewrite <- app_assoc.
Qed.

(** X1. On a line without double quotes the quote-aware scanner does
    what a plain split on commas does: the fields are the comma-separated
    parts, each trimmed. *)
Theorem parseCSVLine_without_quotes (line : jsstr) :
  ~ In QUOTE line ->
  parseCSVLine line = List.map trim (split COMMA line).
Proof.
  intros Hq. unfold parseCSVLine.
  pose proof (scan_unquoted line [] [] Hq) as S. cbv zeta in S. rewrite S.
  pose proof (split_nonempty COMMA line).
  by destruct (split COMMA line).
Qed.

Lemma parseCSVLine_without_quotes_witness :
  parseCSVLine (str " 7 , Ann Lee,,NEW ")
  = [str "7"; str "Ann Lee"; []; str "NEW"].
Proof.
  rewrite parseCSVLine_without_quotes; [reflexivity |].
  apply (bool_decide_unpack _). by vm_compute.
Defined.

(** *** Trimming *)

Lemma trimStart_cons s c t : trimStart s = c :: t -> isWhiteSpace c = false.
Proof.
  induction s as [|x s IH]; simpl; [done |].
  destruct (isWhiteSpace x) eqn:E; [exact IH |]. by intros [= <- _].
Qed.

Lemma trimStart_visible c t : isWhiteSpace c = false -> trimStart (c :: t) = c :: t.
Proof. intros E. simpl. by rewrite E. Qed.

Lemma trimStart_idem s : trimStart (trimStart s) = trimStart s.
Proof.
  destruct (trimStart s) as [|c t] eqn:E; [done |].
  apply trimStart_visible. by apply trimStart_cons in E.
Qed.

Lemma trimStart_snoc u c :
  isWhiteSpace c = false -> trimStart (u ++ [c]) = trimStart u ++ [c].
Proof.
  intros Hc. induction u as [|x u IH]; simpl; [by rewrite Hc |].
  by destruct (isWhiteSpace x).
Qed.

Lemma trimEnd_visible c t :
  isWhiteSpace c = false -> exists t', trimEnd (c :: t) = c :: t'.
Proof.
  intros Hc. unfold trimEnd. simpl. rewrite trimStart_snoc by done.
  rewrite rev_app_distr. simpl. eauto.
Qed.

Lemma trimEnd_idem s : trimEnd (trimEnd s) = trimEnd s.
Proof. unfold trimEnd. by rewrite rev_involutive, trimStart_idem. Qed.

Lemma trim_idem s : trim (trim s) = trim s.
Proof.
  unfold trim. destruct (trimStart s) as [|c t] eqn:E; [done |].
  apply trimStart_cons in E.
  destruct (trimEnd_visible c t E) as [t' E']. rewrite E'.
  rewrite trimStart_visible by done. rewrite <- E'. apply trimEnd_idem.
Qed.

Lemma trim_sub s c : In c (trim s) -> In c s.
Proof.
  unfold trim, trimEnd. intros Hc. apply in_rev in Hc.
  apply trimStart_sub in Hc. apply in_rev in Hc. by apply trimStart_sub in Hc.
Qed.

(** *** The fields *)

Lemma scanChar_fields line s c :
  Forall (fun f => trim f = f /\ forall x, In x f -> x <> QUOTE /\ In x line)
         (result s) ->
  (forall x, In x (current s) -> x <> QUOTE /\ In x line) ->
  In c line ->
  Forall (fun f => trim f = f /\ forall x, In x f -> x <> QUOTE /\ In x line)
         (result (scanChar s c))
  /\ (forall x, In x (current (scanChar s c)) -> x <> QUOTE /\ In x line).
Proof.
  intros Hres Hcur Hc. unfold scanChar.
  destruct (N.eqb_spec c QUOTE) as [->|Hq]; [done |].
  destruct ((c =? COMMA)%N && negb (inQuotes s)); simpl.
  - split; [| done]. apply Forall_app. split; [done |].
    constructor; [| constructor]. split; [apply trim_idem |].
    intros x Hx. by apply Hcur, trim_sub.
  - split; [done |]. intros x Hx. apply in_app_iff in Hx as [Hx | [<- | []]]; auto.
Qed.

Lemma scan_fields_of line chars s :
  (forall c, In c chars -> In c line) ->
  Forall (fun f => trim f = f /\ forall x, In x f -> x <> QUOTE /\ In x line)
         (result s) ->
  (forall x, In x (current s) -> x <> QUOTE /\ In x line) ->
  let s' := fold_left scanChar chars s in
  Forall (fun f => trim f = f /\ forall x, In x f -> x <> QUOTE /\ In x line)
         (result s')
  /\ (forall x, In x (current s') -> x <> QUOTE /\ In x line).
Proof.
  cbv zeta. revert s. induction chars as [|c chars IH]; intros s Hsub Hres Hcur.
  - done.
  - simpl. destruct (scanChar_fields line s c Hres Hcur) as [Hres' Hcur'].
    { apply Hsub. by left. }
    apply IH; [| done | done]. intros x Hx. apply Hsub. by right.
Qed.

Lemma parseCSVLine_clean line :
  Forall (fun field =>
            trim field = field
            /\ forall c, In c field -> c <> QUOTE /\ In c line)
         (parseCSVLine line).
Proof.
  unfold parseCSVLine.
  destruct (scan_fields_of line line (Scanner [] [] false)) as [Hres Hcur];
    [done | constructor | by intros x [] |].
  apply Forall_app. split; [done |].
  constructor; [| constructor]. split; [apply trim_idem |].
  intros c Hc. by apply Hcur, trim_sub.
Qed.

(** X2. Whatever the line, [parseCSVLine] returns at least one field, and
    every field it returns is trimmed, holds no double quote and is made
    of characters of the line. *)
Theorem parseCSVLine_fields_are_clean (line : jsstr) :
  parseCSVLine line <> []
  /\ Forall (fun field =>
               trim field = field
               /\ forall c, In c field -> c <> QUOTE /\ In c line)
            (parseCSVLine line).
Proof.
  split; [| apply parseCSVLine_clean].
  unfold parseCSVLine. by destruct (result _).
Qed.

(** ** CSV codec: what [parseCSV] returns *)

Lemma nonBlankLines_one_line csv line :
  In line (nonBlankLines csv) -> ~ In NEWLINE line.
Proof.
  unfold nonBlankLines. intros Hl. apply filter_In in Hl as [Hl _].
  by apply split_parts_without in Hl.
Qed.

Lemma headerNames_chars header h c :
  In h (headerNames header) -> In c h ->
  c <> QUOTE /\ c <> COMMA /\ In c header.
Proof.
  unfold headerNames. intros Hh Hc.
  apply in_map_iff in Hh as (p & <- & Hp).
  unfold removeQuotes in Hc. apply filter_In in Hc as [Hc Hq].
  apply trim_sub in Hc. split; [| split].
  - intros ->. by rewrite N.eqb_refl in Hq.
  - intros ->. by apply (split_parts_without _ _ _ Hp).
  - by apply (split_parts_sub _ _ _ _ Hp).
Qed.

Lemma names_combine (hs vals : list jsstr) :
  length hs = length vals -> List.map fst (combine hs vals) = hs.
Proof.
  revert vals. induction hs as [|h hs IH]; intros [|v vals]; simpl; try done.
  intros [= E]. f_equal. by apply IH.
Qed.

Lemma names_fields (hs vals : list jsstr) :
  length hs = length vals ->
  List.map fst (List.filter (fun kv => negb (bool_decide (fst kv = PROTO)))
                  (combine hs vals))
  = fieldNames hs.
Proof.
  revert vals. induction hs as [|h hs IH]; intros [|v vals]; simpl; try done.
  intros [= E]. unfold fieldNames. simpl.
  destruct (negb (bool_decide (h = PROTO))); simpl; [f_equal |]; by apply IH.
Qed.

Lemma fillRow_combine hs vals :
  NoDup hs -> length vals = length hs ->
  fillRow hs 0 vals []
  = List.filter (fun kv => negb (bool_decide (fst kv = PROTO)))
      (combine hs vals).
Proof.
  intros Hnd Hlen. rewrite fillRow_fresh; [by rewrite drop_0 | done | |].
  - by intros h _ [].
  - rewrite drop_0. lia.
Qed.

Lemma parseCSV_rows csv :
  parseCSV csv
  = List.map (fun line =>
                fillRow (headerNames (hd [] (nonBlankLines csv))) 0
                        (parseCSVLine line) [])
      (List.filter
         (fun line =>
            bool_decide (length (parseCSVLine line)
                         = length (headerNames (hd [] (nonBlankLines csv)))))
         (tl (nonBlankLines csv))).
Proof.
  unfold parseCSV.
  destruct (nonBlankLines csv) as [|h [|l ls]]; try reflexivity.
  change (length (h :: l :: ls) <? 2)%nat with false. cbv iota.
  by rewrite fold_parseRow.
Qed.

(** The header names hold no double quote, comma or newline. *)
Lemma parseCSV_header_names csv h c :
  In h (headerNames (hd [] (nonBlankLines csv))) -> In c h ->
  c <> QUOTE /\ c <> COMMA /\ c <> NEWLINE.
Proof.
  intros Hh Hc. destruct (headerNames_chars _ _ _ Hh Hc) as (Hq & Hm & Hin).
  split; [done | split; [done |]]. intros ->.
  destruct (nonBlankLines csv) as [|l ls] eqn:E; [done |].
  apply (nonBlankLines_one_line csv l); [rewrite E; by left | done].
Qed.

(** The properties of a row are created in the order of the header, but
    for [__proto__], and hold clean values. *)
Lemma parseCSV_rows_shape csv :
  NoDup (headerNames (hd [] (nonBlankLines csv))) ->
  Forall (fun row =>
            List.map fst row
            = fieldNames (headerNames (hd [] (nonBlankLines csv)))
            /\ Forall (fun kv =>
                         trim (snd kv) = snd kv
                         /\ forall c, In c (snd kv) ->
                              c <> QUOTE /\ c <> NEWLINE) row)
         (parseCSV csv).
Proof.
  intros Hnd. rewrite parseCSV_rows.
  apply List.Forall_forall. intros row Hrow.
  apply in_map_iff in Hrow as (line & <- & Hline).
  apply filter_In in Hline as [Hline Harity].
  apply bool_decide_eq_true in Harity.
  rewrite fillRow_combine by done. split; [by apply names_fields |].
  apply List.Forall_forall. intros [k v] Hkv.
  apply filter_In in Hkv as [Hkv _]. apply in_combine_r in Hkv. simpl.
  pose proof (parseCSVLine_clean line) as Hclean.
  rewrite List.Forall_forall in Hclean. destruct (Hclean v Hkv) as [Ht Hc].
  split; [done |]. intros c Hin. destruct (Hc c Hin) as [Hq Hl].
  split; [done |]. intros ->.
  apply (nonBlankLines_one_line csv line); [| done].
  destruct (nonBlankLines csv); [done | by right].
Qed.

Lemma fieldNames_In hs h : In h (fieldNames hs) <-> In h hs /\ h <> PROTO.
Proof.
  unfold fieldNames. rewrite filter_In, negb_true_iff, bool_decide_eq_false.
  done.
Qed.

Lemma fieldNames_NoDup hs : NoDup hs -> NoDup (fieldNames hs).
Proof.
  unfold fieldNames. induction hs as [|h hs IH]; intros Hnd; [done |].
  apply NoDup_cons in Hnd as [Hh Hnd]. simpl.
  destruct (negb (bool_decide (h = PROTO))); [| by apply IH].
  apply NoDup_cons. split; [| by apply IH].
  rewrite list_elem_of_In, filter_In. intros [Hin _].
  by apply Hh, list_elem_of_In.
Qed.

Lemma PROTO_no_index : isIndex PROTO = false.
Proof. reflexivity. Qed.

Lemma fieldNames_indices hs :
  List.filter isIndex (fieldNames hs) = List.filter isIndex hs.
Proof.
  unfold fieldNames. induction hs as [|h hs IH]; simpl; [done |].
  destruct (bool_decide (h = PROTO)) eqn:E; simpl.
  - apply bool_decide_eq_true in E. subst h. by rewrite PROTO_no_index.
  - by rewrite IH.
Qed.

(** X3. When the header names are distinct, every record [parseCSV]
    returns has as its fields the header names other than [__proto__].
    [Object.keys] lists them with the names that are array indices
    first, in ascending order, and then the other names in the order of
    the header.  Every value the record holds is trimmed and free of
    double quotes and newlines. *)
Theorem parseCSV_rows_have_the_header_fields (csv : jsstr) :
  let headers := headerNames (hd [] (nonBlankLines csv)) in
  NoDup headers ->
  Forall (fun row =>
            (forall name,
               In name (keys row) <-> In name headers /\ name <> PROTO)
            /\ (exists indices,
                  keys row
                  = indices
                    ++ List.filter (fun h => negb (isIndex h))
                         (fieldNames headers)
                  /\ Permutation indices (List.filter isIndex headers)
                  /\ StronglySorted (fun a b => indexOf a <= indexOf b)
                       indices)
            /\ Forall (fun kv =>
                         trim (snd kv) = snd kv
                         /\ forall c, In c (snd kv) ->
                              c <> QUOTE /\ c <> NEWLINE) row)
         (parseCSV csv).
Proof.
  intros headers Hnd.
  eapply Forall_impl; [apply (parseCSV_rows_shape csv Hnd) |].
  fold headers. intros row [Hcreated Hvalues].
  split; [| split; [| done]].
  - intros name. by rewrite keys_In, Hcreated, fieldNames_In.
  - unfold keys. rewrite Hcreated. eexists. split; [reflexivity |].
    rewrite fieldNames_indices. split; [symmetry; apply sort_perm |].
    eapply StronglySorted_impl; [| apply index_sorted].
    intros a b. simpl. lia.
Qed.

(** A header with an array index, a quoted name and [__proto__]. *)
Lemma parseCSV_rows_have_the_header_fields_witness :
  let csv := str "ID, " ++ [QUOTE] ++ str "Lead Name" ++ [QUOTE]
             ++ str " ,__proto__,10,9" ++ [NEWLINE]
             ++ str "1, " ++ [QUOTE] ++ str "Lee, Ann" ++ [QUOTE]
             ++ str " ,NEW,x,y" ++ [NEWLINE] ++ str "2,Bob" in
  parseCSV csv
  = [[(str "ID", str "1"); (str "Lead Name", str "Lee, Ann");
      (str "10", str "x"); (str "9", str "y")]]
  /\ Forall (fun row =>
              exists indices,
                keys row = indices ++ [str "ID"; str "Lead Name"]
                /\ Permutation indices [str "10"; str "9"]
                /\ StronglySorted (fun a b => indexOf a <= indexOf b) indices)
            (parseCSV csv).
Proof.
  intros csv. split; [reflexivity |].
  eapply Forall_impl; [apply (parseCSV_rows_have_the_header_fields csv) |].
  - apply (bool_decide_unpack _). by vm_compute.
  - intros row (_ & Hkeys & _). exact Hkeys.
Defined.

Lemma visibleNames_perm (hs ks : list jsstr) :
  Permutation hs ks -> visibleNames hs -> visibleNames ks.
Proof.
  intros P [Hne Hone]. split.
  - intros ->. by apply Permutation_sym, Permutation_nil in P.
  - intros ->. apply Hone. by apply Permutation_length_1_inv, Permutation_sym.
Qed.

(** X4. Exporting what [parseCSV] read and parsing the export again gives
    the same records, each with its fields in the order in which
    [Object.keys] lists them; so the same objects, and the very records
    when no field name is an array index.  This holds when there is at
    least one record, the header names are distinct and, those that
    become fields, without white space around them, and when a single
    name that becomes a field is not empty. *)
Theorem parseCSV_of_export_of_parsed `{Host} (csv : jsstr) :
  let headers := headerNames (hd [] (nonBlankLines csv)) in
  let fields := fieldNames headers in
  parseCSV csv <> [] ->
  NoDup headers ->
  Forall (fun h => trim h = h) fields ->
  visibleNames fields ->
  let again := List.map (reorder (propertyOrder fields)) (parseCSV csv) in
  parseCSV <$> exportToCSV (parseCSV csv) = Some again
  /\ Forall2 sameObject again (parseCSV csv)
  /\ (Forall (fun h => isIndex h = false) fields -> again = parseCSV csv).
Proof.
  intros headers fields Hne Hnd Hnames Hvis again.
  pose proof (parseCSV_rows_shape csv Hnd) as Hshape.
  fold headers in Hshape. fold fields in Hshape.
  rewrite List.Forall_forall in Hshape.
  assert (Hfields : NoDup fields) by (by apply fieldNames_NoDup).
  set (listed := propertyOrder fields).
  assert (Hkeys : forall r, In r (parseCSV csv) -> keys r = listed).
  { intros r Hr. unfold keys. by destruct (Hshape r Hr) as [-> _]. }
  assert (Hlisted : forall h, In h listed -> In h headers /\ h <> PROTO).
  { intros h Hh. by apply fieldNames_In, propertyOrder_In. }
  split; [| split].
  - destruct (parseCSV csv) as [|first rest] eqn:E; [done |].
    unfold exportToCSV. cbv zeta. rewrite (Hkeys first) by (by left).
    change (parseCSV <$> Some ?x) with (Some (parseCSV x)). f_equal.
    rewrite parseCSV_exported.
    + rewrite fieldNames_all by (intros Hp; by destruct (Hlisted _ Hp)).
      unfold again. apply map_ext_in. intros r Hr. apply reorder_written.
      intros h Hh. destruct (Hshape r Hr) as [-> _].
      by apply propertyOrder_In.
    + apply (visibleNames_perm fields); [| done].
      symmetry. apply propertyOrder_perm.
    + by apply propertyOrder_NoDup.
    + apply propertyOrder_Forall. apply List.Forall_forall. intros h Hh.
      rewrite List.Forall_forall in Hnames. split; [by apply Hnames |].
      apply List.Forall_forall. intros c Hc. apply fieldNames_In in Hh as [Hh _].
      destruct (parseCSV_header_names csv h c Hh Hc) as (? & ? & ?). done.
    + done.
    + apply List.Forall_forall. intros r Hr.
      apply List.Forall_forall. intros h Hh.
      destruct (Hshape r Hr) as [Hcreated Hvalues].
      destruct (get_own h r) as [v Ev].
      { rewrite Hcreated. by apply propertyOrder_In. }
      rewrite (fieldText_own _ _ _ Ev). apply get_In in Ev.
      rewrite List.Forall_forall in Hvalues.
      destruct (Hvalues (h, v) Ev) as [Ht Hc]. split; [done |].
      apply List.Forall_forall. intros c Hin. by apply Hc.
  - unfold again. apply Forall2_fmap_l, Forall2_same_length_lookup_2; [done |].
    intros i out r Ho Hr. rewrite Ho in Hr. injection Hr as ->.
    assert (Hin : In r (parseCSV csv))
      by (by apply list_elem_of_In, list_elem_of_lookup_2 with i).
    split.
    + rewrite keys_reorder, (Hkeys r Hin). apply propertyOrder_idem.
    + apply reorder_same_fields. intros k. by rewrite (Hkeys r Hin).
  - intros Hplain. unfold again, listed.
    rewrite (propertyOrder_plain fields Hplain).
    rewrite <- (map_id (parseCSV csv)) at 2. apply map_ext_in. intros r Hr.
    destruct (Hshape r Hr) as [Hcreated _]. rewrite <- Hcreated.
    apply reorder_same_order. by rewrite Hcreated.
Qed.

(** A file whose names include an array index and [__proto__], and one
    with plain names. *)
Lemma parseCSV_of_export_of_parsed_witness :
  let odd := str "Stage,7,__proto__" ++ [NEWLINE] ++ str "NEW,x,y" in
  let csv := str "ID, Lead Name ,Stage" ++ [NEWLINE]
             ++ str "1, " ++ [QUOTE] ++ str "Lee, Ann" ++ [QUOTE]
             ++ str " ,NEW" ++ [NEWLINE] ++ [NEWLINE] ++ str " 2 ,Bob,IDLE" in
  parseCSV odd = [[(str "Stage", str "NEW"); (str "7", str "x")]]
  /\ parseCSV <$> exportToCSV (H := Sample.host) (parseCSV odd)
     = Some [[(str "7", str "x"); (str "Stage", str "NEW")]]
  /\ parseCSV <$> exportToCSV (H := Sample.host) (parseCSV csv)
     = Some (parseCSV csv).
Proof.
  intros odd csv. split; [reflexivity | split].
  - destruct (parseCSV_of_export_of_parsed (H := Sample.host) odd)
      as (E & _).
    + by vm_compute.
    + apply (bool_decide_unpack _). by vm_compute.
    + repeat constructor; by vm_compute.
    + split; discriminate.
    + rewrite E. reflexivity.
  - destruct (parseCSV_of_export_of_parsed (H := Sample.host) csv)
      as (E & _ & Same).
    + by vm_compute.
    + apply (bool_decide_unpack _). by vm_compute.
    + repeat constructor; by vm_compute.
    + split; discriminate.
    + rewrite E. apply (f_equal Some), Same. repeat constructor; by vm_compute.
Defined.

(** ** CSV codec: columns of one name *)

Lemma get_assign name k v r :
  get name (assign k v r) = if decide (k = name) then Some v else get name r.
Proof.
  induction r as [|[k' w] r IH]; simpl.
  - by destruct (decide (k = name)).
  - destruct (decide (k' = k)) as [->|Hk]; simpl.
    + by destruct (decide (k = name)).
    + destruct (decide (k' = name)) as [->|Hn]; [| exact IH].
      by destruct (decide (k = name)).
Qed.

Lemma get_set name k v r :
  get PROTO r = None ->
  get name (set k v r)
  = if decide (k = name) then (if decide (name = PROTO) then None else Some v)
    else get name r.
Proof.
  intros Hp. unfold set. destruct (decide (k = PROTO)) as [->|Hk].
  - rewrite Hp. destruct (decide (PROTO = name)) as [<-|Hn]; [| done].
    by destruct (decide (PROTO = PROTO)).
  - rewrite get_assign. destruct (decide (k = name)) as [->|Hn]; [| done].
    by destruct (decide (name = PROTO)).
Qed.

Lemma get_snoc name l k v :
  get name (l ++ [(k, v)])
  = match get name l with
    | Some x => Some x
    | None => if decide (k = name) then Some v else None
    end.
Proof.
  induction l as [|[k' w] l IH]; simpl; [done |].
  by destruct (decide (k' = name)).
Qed.

(** What a row holds once filled: under [__proto__] nothing, under
    another name the value of the last column of that name. *)
Lemma get_fillRow name hs i vals row :
  get PROTO row = None ->
  (length hs <= length (drop i vals))%nat ->
  get name (fillRow hs i vals row)
  = if decide (name = PROTO) then None
    else match get name (rev (combine hs (drop i vals))) with
         | Some v => Some v
         | None => get name row
         end.
Proof.
  revert i row. induction hs as [|h hs IH]; intros i row Hp Hlen.
  - simpl. destruct (decide (name = PROTO)) as [->|]; done.
  - destruct (drop i vals) as [|v rest] eqn:D; [simpl in Hlen; lia |].
    assert (Hi : vals !! i = Some v).
    { rewrite <- (Nat.add_0_r i), <- lookup_drop, D. done. }
    assert (D' : drop (S i) vals = rest).
    { rewrite (drop_S _ _ _ Hi) in D. by injection D. }
    simpl fillRow. unfold valueAt. rewrite Hi, orEmpty_Some.
    rewrite IH.
    + rewrite D'. simpl combine. simpl rev. rewrite get_snoc.
      destruct (decide (name = PROTO)) as [E|E]; [done |].
      destruct (get name (rev (combine hs rest))); [done |].
      rewrite (get_set name h v row Hp).
      destruct (decide (h = name)); [| done].
      by destruct (decide (name = PROTO)).
    + rewrite (get_set PROTO h v row Hp).
      destruct (decide (h = PROTO)); [| done].
      by destruct (decide (PROTO = PROTO)).
    + rewrite D'. simpl in Hlen. lia.
Qed.

(** X25. Whatever the header, a record [parseCSV] returns holds, under
    each header name other than [__proto__], the field its line has in
    the last column of that name, and holds nothing under any other name:
    of two columns with one name the later one wins, and [__proto__] makes
    no field. *)
Theorem parseCSV_last_column_wins (csv : jsstr) :
  let headers := headerNames (hd [] (nonBlankLines csv)) in
  let accepted :=
    List.filter (fun line =>
      bool_decide (length (parseCSVLine line) = length headers))
      (tl (nonBlankLines csv)) in
  Forall2 (fun row line =>
             forall name,
               get name row
               = if decide (name = PROTO) then None
                 else get name (rev (combine headers (parseCSVLine line))))
          (parseCSV csv) accepted.
Proof.
  intros headers accepted. rewrite parseCSV_rows. fold headers. fold accepted.
  apply Forall2_fmap_l, Forall2_same_length_lookup_2; [done |].
  intros i line line' Hl Hl'. rewrite Hl in Hl'. injection Hl' as <-.
  intros name.
  assert (Harity : length (parseCSVLine line) = length headers).
  { apply list_elem_of_lookup_2, list_elem_of_In, filter_In in Hl as [_ Hl].
    by apply bool_decide_eq_true in Hl. }
  rewrite get_fillRow; [| done | rewrite drop_0; lia].
  rewrite drop_0. destruct (decide (name = PROTO)); [done |].
  by destruct (get name (rev (combine headers (parseCSVLine line)))).
Qed.

(** ** CSV codec: a written line read back *)

Lemma scan_quoted res cur v :
  fold_left scanChar (doubleQuotes v) (Scanner res cur true)
  = Scanner res (cur ++ removeQuotes v) true.
Proof.
  revert cur. induction v as [|c v IH]; intros cur.
  - simpl. by rewrite app_nil_r.
  - unfold doubleQuotes, removeQuotes. simpl.
    fold (doubleQuotes v). fold (removeQuotes v).
    destruct (N.eqb_spec c QUOTE) as [->|Hc]; simpl.
    + unfold scanChar at 2 3. simpl. apply IH.
    + unfold scanChar at 2. simpl.
      destruct (N.eqb_spec c QUOTE) as [E|_]; [done |].
      rewrite andb_false_r, IH, <- app_assoc. done.
Qed.

Lemma scan_written res v :
  fold_left scanChar ([QUOTE] ++ doubleQuotes v ++ [QUOTE]) (Scanner res [] false)
  = Scanner res (removeQuotes v) false.
Proof.
  simpl. unfold scanChar at 2. simpl.
  by rewrite fold_left_app, scan_quoted.
Qed.

Lemma scan_written_fields vs res :
  vs <> [] ->
  let s := fold_left scanChar
             (join [COMMA]
                (List.map (fun v => [QUOTE] ++ doubleQuotes v ++ [QUOTE]) vs))
             (Scanner res [] false) in
  result s ++ [trim (current s)]
  = res ++ List.map (fun v => trim (removeQuotes v)) vs.
Proof.
  intros Hne. cbv zeta. revert res.
  induction vs as [|v vs IH]; intros res; [done |].
  destruct vs as [|w vs].
  - change (join [COMMA] (List.map _ [v]))
      with ([QUOTE] ++ doubleQuotes v ++ [QUOTE]).
    by rewrite scan_written.
  - change (join [COMMA] (List.map _ (v :: w :: vs)))
      with (([QUOTE] ++ doubleQuotes v ++ [QUOTE]) ++ COMMA
            :: join [COMMA]
                 (List.map (fun v => [QUOTE] ++ doubleQuotes v ++ [QUOTE])
                    (w :: vs))).
    rewrite fold_left_app, scan_written.
    change (fold_left scanChar (COMMA :: ?l) ?s)
      with (fold_left scanChar l (scanChar s COMMA)).
    change (scanChar (Scanner res (removeQuotes v) false) COMMA)
      with (Scanner (res ++ [trim (removeQuotes v)]) [] false).
    rewrite IH by done. simpl. by rewrite <- app_assoc.
Qed.

(** X24. Whatever a lead holds, the line [exportToCSV] writes for it under
    at least one field name is read back by [parseCSVLine] as one field
    per name: the text written for the name, without its double quotes
    and trimmed.  The quoting keeps a comma of a value from splitting
    it; double quotes and the white space around a value are what is
    lost. *)
Theorem parseCSVLine_of_written_line `{Host} (lead : record)
    (headers : list jsstr) :
  headers <> [] ->
  let line := join [COMMA] (List.map (quoteField lead) headers) in
  parseCSVLine line
  = List.map (fun h => trim (removeQuotes (fieldText h lead))) headers
  /\ length (parseCSVLine line) = length headers.
Proof.
  intros Hne line.
  assert (E : parseCSVLine line
              = List.map (fun h => trim (removeQuotes (fieldText h lead)))
                  headers).
  { unfold line, parseCSVLine, quoteField.
    rewrite <- (List.map_map (fun h => fieldText h lead)
                  (fun v => [QUOTE] ++ doubleQuotes v ++ [QUOTE])).
    pose proof (scan_written_fields
                  (List.map (fun h => fieldText h lead) headers) []) as S.
    cbv zeta in S. rewrite S by (by destruct headers).
    simpl. by rewrite List.map_map. }
  split; [exact E | rewrite E; apply length_map].
Qed.

(** A value with commas, double quotes and white space around it. *)
Lemma parseCSVLine_of_written_line_witness :
  let lead := [(str "ID", str "7");
               (str "Lead Name",
                str " Lee, " ++ [QUOTE] ++ str "Ann, B." ++ [QUOTE]
                ++ str " ")] in
  parseCSVLine
    (join [COMMA]
       (List.map (quoteField (H := Sample.host) lead)
          [str "ID"; str "Lead Name"; str "Stage"]))
  = [str "7"; str "Lee, Ann, B."; []].
Proof.
  intros lead.
  destruct (parseCSVLine_of_written_line (H := Sample.host) lead
              [str "ID"; str "Lead Name"; str "Stage"]) as [E _]; [done |].
  rewrite E. reflexivity.
Defined.

(** ** Query engine: when the filter completes *)

Section FilterRuns.
Context `{Host}.

Lemma keeps_passes c lead :
  truthy (orEmpty (filter_date c)) = false
  \/ get (str "Created") lead <> None ->
  keeps c lead = Normal (passes c lead).
Proof.
  intros Hok. unfold passes.
  destruct (keeps c lead) as [b|e|] eqn:K; [done | | by destruct (keeps_inside c lead)].
  exfalso. unfold keeps, leadMatches in K.
  destruct (truthy (orEmpty (filter_date c))); [| done].
  destruct (get (str "Created") lead); [done |].
  by destruct Hok.
Qed.

Lemma filterE_passes c l :
  truthy (orEmpty (filter_date c)) = false
  \/ Forall (fun lead => get (str "Created") lead <> None) l ->
  filterE (keeps c) l = Normal (List.filter (passes c) l).
Proof.
  intros Hok. apply filterE_Normal. intros lead Hin. apply keeps_passes.
  destruct Hok as [Hd | Hall]; [by left | right].
  rewrite List.Forall_forall in Hall. by apply Hall.
Qed.

Lemma filterLeads_completes_run c st :
  truthy (orEmpty (filter_date c)) = false
  \/ Forall (fun lead => get (str "Created") lead <> None) (leads st) ->
  filterLeads c st
  = (Normal tt,
     renderTable
       (with_currentPage 1
          (with_filteredLeads (List.filter (passes c) (leads st)) st))).
Proof. intros Hok. by rewrite filterLeads_run, filterE_passes. Qed.

Lemma passes_sound c lead :
  passes c lead = true ->
  (truthy (orEmpty (filter_stage c)) = true ->
   get (str "Stage") lead = Some (orEmpty (filter_stage c)))
  /\ (truthy (orEmpty (filter_source c)) = true ->
      get (str "Source") lead = Some (orEmpty (filter_source c)))
  /\ (truthy (orEmpty (filter_responsible c)) = true ->
      get (str "Responsible") lead = Some (orEmpty (filter_responsible c)))
  /\ (truthy (orEmpty (filter_date c)) = true ->
      exists created,
        get (str "Created") lead = Some created
        /\ dateString (isoOrder created) = dateString (orEmpty (filter_date c))).
Proof.
  unfold passes, keeps, leadMatches, matchesExact.
  destruct (truthy (orEmpty (filter_date c))) eqn:D;
    [destruct (get (str "Created") lead) as [created|]; [| done] |];
    rewrite !andb_true_iff, !orb_true_iff, !bool_decide_eq_true,
      !negb_true_iff;
    intros ((((_ & S1) & S2) & S3) & S4);
    (split; [intros E; destruct S1; congruence
            | split; [intros E; destruct S2; congruence
                     | split; [intros E; destruct S3; congruence |]]]).
  - intros _. eauto.
  - done.
Qed.

Lemma passes_all c lead : noCriteria c -> passes c lead = true.
Proof.
  intros (E1 & E2 & E3 & E4 & E5).
  unfold passes, keeps, leadMatches, matchesExact.
  by rewrite E1, E2, E3, E4, E5.
Qed.

End FilterRuns.

(** X5. A filter completes whenever no date is chosen or every lead of
    the collection has a [Created] field.  It then leaves the collection
    and the stored blob as they were, makes the View a subsequence of the
    collection, goes to page 1 and reports the size of the new View as
    the total. *)
Theorem filterLeads_completes `{Host} (c : controls) (st : state) :
  truthy (orEmpty (filter_date c)) = false
  \/ Forall (fun lead => get (str "Created") lead <> None) (leads st) ->
  let st' := final (filterLeads c st) in
  outcome (filterLeads c st) = Normal tt
  /\ leads st' = leads st
  /\ leadsData st' = leadsData st
  /\ sublist (filteredLeads st') (leads st)
  /\ currentPage st' = 1
  /\ total (page st') = Z.of_nat (length (filteredLeads st')).
Proof.
  intros Hok st'. unfold st'. rewrite filterLeads_completes_run by done.
  repeat split; try done. apply filter_sublist.
Qed.

Lemma filterLeads_completes_witness :
  let ann := [(str "ID", str "1"); (str "Stage", str "NEW");
              (str "Created", str "15/01/2024")] in
  let bob := [(str "ID", str "2"); (str "Stage", str "NEW");
              (str "Created", str "16/01/2024")] in
  let c := Controls None (Some (str "NEW")) None None
                    (Some (str "2024-01-16")) in
  let st := State [ann; bob] [] 3 10 [] asc None (Display [] (0, 0) 0) in
  outcome (filterLeads (H := Sample.host) c st) = Normal tt
  /\ filteredLeads (final (filterLeads (H := Sample.host) c st)) = [bob]
  /\ currentPage (final (filterLeads (H := Sample.host) c st)) = 1.
Proof.
  intros ann bob c st.
  destruct (filterLeads_completes (H := Sample.host) c st)
    as (O & _ & _ & _ & P & _).
  - right. repeat constructor; discriminate.
  - split; [exact O | split; [reflexivity | exact P]].
Defined.

Lemma filterE_verdicts {A} (f : A -> completion bool) l kept :
  filterE f l = Normal kept ->
  kept = List.filter (fun x => match f x with
                               | Normal b => b
                               | Throw _ | Outside => false
                               end) l.
Proof.
  revert kept. induction l as [|x l IH]; intros kept; simpl.
  - by intros [= <-].
  - destruct (f x) as [b|e|]; [| done | done].
    destruct (filterE f l) as [kept'|e|]; [| done | done].
    intros [= <-]. rewrite (IH kept' eq_refl). by destruct b.
Qed.

(** X6. After a filter that completes, every lead of the View is a lead
    of the collection whose [Stage], [Source] and [Responsible] are
    exactly the chosen ones (for each of the three that is chosen), and,
    when a date is chosen, whose [Created] date has the date text of the
    chosen date. *)
Theorem filterLeads_view_matches `{Host} (c : controls) (st : state) :
  outcome (filterLeads c st) = Normal tt ->
  Forall (fun lead =>
            In lead (leads st)
            /\ (truthy (orEmpty (filter_stage c)) = true ->
                get (str "Stage") lead = Some (orEmpty (filter_stage c)))
            /\ (truthy (orEmpty (filter_source c)) = true ->
                get (str "Source") lead = Some (orEmpty (filter_source c)))
            /\ (truthy (orEmpty (filter_responsible c)) = true ->
                get (str "Responsible") lead
                = Some (orEmpty (filter_responsible c)))
            /\ (truthy (orEmpty (filter_date c)) = true ->
                exists created,
                  get (str "Created") lead = Some created
                  /\ dateString (isoOrder created)
                     = dateString (orEmpty (filter_date c))))
         (filteredLeads (final (filterLeads c st))).
Proof.
  rewrite filterLeads_run.
  destruct (filterE (keeps c) (leads st)) as [kept|e|] eqn:E; [| done | done].
  intros _. apply filterE_verdicts in E. unfold final. simpl. rewrite E.
  apply List.Forall_forall. intros lead Hlead.
  apply filter_In in Hlead as [Hin Hp]. split; [done |].
  by apply passes_sound.
Qed.

Lemma filterLeads_view_matches_witness :
  let ann := [(str "ID", str "1"); (str "Stage", str "NEW");
              (str "Source", str "Web")] in
  let bob := [(str "ID", str "2"); (str "Stage", str "IDLE");
              (str "Source", str "Web")] in
  let c := Controls None (Some (str "NEW")) (Some (str "Web")) None None in
  let st := State [ann; bob] [] 1 10 [] asc None (Display [] (0, 0) 0) in
  filteredLeads (final (filterLeads (H := Sample.host) c st)) = [ann]
  /\ Forall (fun lead => get (str "Stage") lead = Some (str "NEW"))
            (filteredLeads (final (filterLeads (H := Sample.host) c st))).
Proof.
  intros ann bob c st. split; [reflexivity |].
  eapply Forall_impl;
    [apply (filterLeads_view_matches (H := Sample.host) c st); reflexivity |].
  intros lead (_ & S & _). by apply S.
Defined.

(** X7. With no search term and no filter set, the filter completes and
    the View is the whole collection, in its order. *)
Theorem filterLeads_without_criteria `{Host} (c : controls) (st : state) :
  noCriteria c ->
  outcome (filterLeads c st) = Normal tt
  /\ filteredLeads (final (filterLeads c st)) = leads st.
Proof.
  intros Hc. rewrite filterLeads_completes_run.
  - split; [done |]. unfold final. simpl. apply filter_all.
    intros lead _. by apply passes_all.
  - left. destruct Hc as (_ & _ & _ & _ & ->). done.
Qed.

Lemma filterLeads_without_criteria_witness :
  let ann := [(str "ID", str "1")] in
  let bob := [(str "Lead Name", str "Bob")] in
  let c := Controls (Some []) None (Some []) None None in
  let st := State [ann; bob] [ann] 1 10 [] asc None (Display [] (0, 0) 0) in
  filteredLeads (final (filterLeads (H := Sample.host) c st)) = [ann; bob].
Proof.
  intros ann bob c st.
  apply (filterLeads_without_criteria (H := Sample.host) c st).
  repeat split.
Defined.

(** ** Record store: the import loop *)

Lemma ids_app l k : ids (l ++ k) = ids l ++ ids k.
Proof. unfold ids. apply map_app. Qed.

Lemma not_duplicate lead l :
  existsb (sameID lead) l = false -> get (str "ID") lead ∉ ids l.
Proof.
  intros E Hin. apply list_elem_of_In, in_map_iff in Hin as (e & He & Hin).
  assert (existsb (sameID lead) l = true); [| congruence].
  apply existsb_exists. exists e. split; [done |].
  unfold sameID. by apply bool_decide_eq_true.
Qed.

Lemma import_keeps_ids_distinct l t :
  NoDup (ids (merged t)) ->
  NoDup (ids (merged (fold_left (importOne true) l t))).
Proof.
  revert t. induction l as [|lead l IH]; intros t Hnd; [done |].
  simpl. apply IH. unfold importOne. simpl.
  destruct (existsb (sameID lead) (merged t)) eqn:E; [done |].
  simpl. rewrite ids_app. apply NoDup_app. split; [done | split].
  - intros x Hx Hin. apply list_elem_of_singleton in Hin as ->.
    by apply (not_duplicate lead (merged t)).
  - apply NoDup_singleton.
Qed.

(** X8. Importing with [skipDuplicates] keeps the [ID]s of the collection
    distinct: if no two leads of the collection share an [ID] before the
    import (a missing [ID] counting as one value), none do after it,
    whatever the incoming records. *)
Theorem importLoop_keeps_ids_distinct (coll incoming : list record) :
  NoDup (ids coll) ->
  NoDup (ids (merged (importLoop true coll incoming))).
Proof. intros Hnd. by apply import_keeps_ids_distinct. Qed.

Lemma importLoop_keeps_ids_distinct_witness :
  let lead (id : string) : record := [(str "ID", str id)] in
  NoDup (ids (merged (importLoop true [lead "1"%string; []]
                        [lead "2"%string; []; lead "2"%string;
                         lead "1"%string; lead "3"%string]))).
Proof.
  intros lead. apply importLoop_keeps_ids_distinct.
  apply (bool_decide_unpack _). by vm_compute.
Defined.

Lemma import_all_known l m i k :
  (forall lead, In lead l -> existsb (sameID lead) m = true) ->
  fold_left (importOne true) l (Tally m i k)
  = Tally m i (k + Z.of_nat (length l)).
Proof.
  revert k. induction l as [|lead l IH]; intros k Hknown.
  - simpl. f_equal. lia.
  - simpl fold_left. unfold importOne at 2. simpl.
    rewrite (Hknown lead) by (by left).
    rewrite IH by (intros; apply Hknown; by right).
    f_equal. simpl length. lia.
Qed.

Lemma sameID_refl lead : sameID lead lead = true.
Proof. unfold sameID. by apply bool_decide_eq_true. Qed.

(** X9. Importing the same records a second time with [skipDuplicates]
    adds nothing: every record is skipped and the collection stays as the
    first import left it. *)
Theorem importLoop_twice (coll incoming : list record) :
  let once := merged (importLoop true coll incoming) in
  importLoop true once incoming
  = Tally once 0 (Z.of_nat (length incoming)).
Proof.
  intros once. unfold importLoop at 1. rewrite import_all_known; [done |].
  intros lead Hin. unfold once. rewrite import_duplicate_of_earlier.
  rewrite existsb_app. apply orb_true_iff. right.
  apply existsb_exists. exists lead. split; [done | apply sameID_refl].
Qed.

(** ** Record store: [importLeads] *)

Section ImportRuns.
Context `{Host}.

Lemma importLeads_run c text skip st l :
  truthy text = true -> JSON_parse text = ParsedLeads l ->
  importLeads c (Some text) skip st
  = let t := importLoop skip (leads st) l in
    let st1 := final (saveLeads (with_leads (merged t) st)) in
    match filterE (keeps c) (merged t) with
    | Normal kept =>
        (Normal (Imported (importedCount t) (skippedCount t)),
         renderTable
           (renderTable (with_currentPage 1 (with_filteredLeads kept st1))))
    | Throw _ => (Normal ImportError, st1)
    | Outside => (Outside, st1)
    end.
Proof.
  intros T P. unfold importLeads. rewrite T.
  unfold tryCatch, bind, lift, modify, reads. rewrite P.
  change (negb true) with false. cbv beta iota zeta.
  rewrite !saveLeads_run. rewrite filterLeads_run. unfold final. simpl.
  destruct (setItem_accepts _); simpl;
    by destruct (filterE (keeps c) _).
Qed.


Lemma importLoop_counts skip coll l :
  importedCount (importLoop skip coll l) + skippedCount (importLoop skip coll l)
  = Z.of_nat (length l)
  /\ Z.of_nat (length (merged (importLoop skip coll l)))
     = Z.of_nat (length coll) + importedCount (importLoop skip coll l)
  /\ 0 <= importedCount (importLoop skip coll l)
  /\ 0 <= skippedCount (importLoop skip coll l).
Proof.
  unfold importLoop.
  destruct (import_kept skip l (Tally coll 0 0)) as (kept & -> & S).
  simpl. rewrite length_app. apply sublist_length in S. lia.
Qed.

End ImportRuns.


(** X11. When the staged text parses to an array of leads and no date is
    chosen, [importLeads] reports as imported and skipped counts that
    add up to the number of staged records, the collection grows by the
    imported count, the accepted blob is the new collection, the View is
    recomputed from the new collection and the manager is on page 1. *)
Theorem importLeads_reports_what_it_did `{Host} (c : controls)
    (text : jsstr) (skip : bool) (st : state) (l : list record) :
  truthy text = true ->
  JSON_parse text = ParsedLeads l ->
  truthy (orEmpty (filter_date c)) = false ->
  let r := importLeads c (Some text) skip st in
  let t := importLoop skip (leads st) l in
  outcome r = Normal (Imported (importedCount t) (skippedCount t))
  /\ importedCount t + skippedCount t = Z.of_nat (length l)
  /\ leads (final r) = merged t
  /\ Z.of_nat (length (leads (final r)))
     = Z.of_nat (length (leads st)) + importedCount t
  /\ (setItem_accepts (JSON_stringify (merged t)) = true ->
      leadsData (final r) = Some (JSON_stringify (merged t)))
  /\ filteredLeads (final r) = List.filter (passes c) (merged t)
  /\ currentPage (final r) = 1.
Proof.
  intros T P D r t. unfold r. rewrite (importLeads_run _ _ _ _ l T P).
  cbv zeta. fold t. rewrite filterE_passes by (by left).
  rewrite saveLeads_run. unfold final. simpl.
  destruct (importLoop_counts skip (leads st) l) as (C1 & C2 & _). fold t in C1, C2.
  repeat split; try done; try (by destruct (setItem_accepts _));
    intros A; by rewrite A.
Qed.

Lemma importLeads_reports_what_it_did_witness :
  let lead (id : string) : record := [(str "ID", str id)] in
  let text := Sample.stringify [lead "2"%string; lead "1"%string] in
  let c := Controls None None None None None in
  let st := State [lead "1"%string] [] 1 10 [] asc None
                  (Display [] (0, 0) 0) in
  let r := importLeads (H := Json.host) c (Some text) true st in
  outcome r = Normal (Imported 1 1)
  /\ leads (final r) = [lead "1"%string; lead "2"%string].
Proof.
  intros lead text c st r.
  destruct (importLeads_reports_what_it_did (H := Json.host) c text true st
              [lead "2"%string; lead "1"%string])
    as (O & _ & L & _); [reflexivity .. |].
  split; [exact O | exact L].
Defined.

(** X12. When a date is chosen and a lead of the merged collection has no
    [Created] field, [importLeads] reports an error although the import
    has taken place: the collection holds the merged records and the
    accepted blob is the merged collection; only the View and the page
    number are left as they were. *)
Theorem importLeads_reports_error_after_import `{Host} (c : controls)
    (text : jsstr) (skip : bool) (st : state) (l : list record)
    (lead : record) :
  truthy text = true ->
  JSON_parse text = ParsedLeads l ->
  truthy (orEmpty (filter_date c)) = true ->
  In lead (merged (importLoop skip (leads st) l)) ->
  get (str "Created") lead = None ->
  let r := importLeads c (Some text) skip st in
  let t := importLoop skip (leads st) l in
  outcome r = Normal ImportError
  /\ leads (final r) = merged t
  /\ (setItem_accepts (JSON_stringify (merged t)) = true ->
      leadsData (final r) = Some (JSON_stringify (merged t)))
  /\ filteredLeads (final r) = filteredLeads st
  /\ currentPage (final r) = currentPage st.
Proof.
  intros T P D Hin Hc r t. unfold r. rewrite (importLeads_run _ _ _ _ l T P).
  cbv zeta. fold t.
  destruct (filterE_Throw (keeps c) (merged t) lead TypeError (keeps_inside c)
              Hin (keeps_without_Created c lead D Hc)) as [e ->].
  rewrite saveLeads_run. unfold final. simpl.
  repeat split; try (by destruct (setItem_accepts _));
    intros A; by rewrite A.
Qed.

Lemma importLeads_reports_error_after_import_witness :
  let lead (id : string) : record := [(str "ID", str id)] in
  let text := Sample.stringify [lead "2"%string] in
  let c := Controls None None None None (Some (str "2024-01-15")) in
  let st := State [] [] 1 10 [] asc None (Display [] (0, 0) 0) in
  let r := importLeads (H := Json.host) c (Some text) false st in
  outcome r = Normal ImportError
  /\ leads (final r) = [lead "2"%string]
  /\ leadsData (final r) = Some text.
Proof.
  intros lead text c st r.
  destruct (importLeads_reports_error_after_import (H := Json.host) c text
              false st [lead "2"%string] (lead "2"%string))
    as (O & L & S & _); [reflexivity | reflexivity | reflexivity | by left
                         | reflexivity |].
  split; [exact O | split; [exact L | exact (S eq_refl)]].
Defined.

(** ** Record store: saving, loading and building the manager *)

Section StoreRuns.
Context `{Host}.

Lemma loadStoredLeads_completes blob :
  absent_or_leads blob ->
  outcome (loadStoredLeads (fresh blob)) = Normal tt.
Proof.
  intros Hblob. rewrite loadStoredLeads_run. simpl.
  destruct blob as [stored|]; [| done].
  destruct (truthy stored) eqn:T; [| done].
  specialize (Hblob stored eq_refl T). by destruct (JSON_parse stored).
Qed.

Lemma init_run blob :
  absent_or_leads blob ->
  init (fresh blob)
  = (Normal tt, renderTable (final (loadStoredLeads (fresh blob)))).
Proof.
  intros Hblob. unfold init, bindEvents, bind, ret, modify, reads.
  pose proof (loadStoredLeads_completes blob Hblob) as O.
  unfold outcome in O. destruct (loadStoredLeads (fresh blob)) as [o st'].
  simpl in O. by rewrite O.
Qed.

Lemma loadStoredLeads_view st :
  filteredLeads st = leads st ->
  filteredLeads (final (loadStoredLeads st))
  = leads (final (loadStoredLeads st)).
Proof.
  intros E. rewrite loadStoredLeads_run.
  destruct (leadsData st) as [stored|]; [| done].
  destruct (truthy stored); [| done].
  by destruct (JSON_parse stored).
Qed.

Lemma loadStoredLeads_frame st :
  currentPage (final (loadStoredLeads st)) = currentPage st
  /\ pageSize (final (loadStoredLeads st)) = pageSize st
  /\ leadsData (final (loadStoredLeads st)) = leadsData st.
Proof.
  rewrite loadStoredLeads_run.
  destruct (leadsData st) as [stored|] eqn:E; [| done].
  destruct (truthy stored); [| done].
  destruct (JSON_parse stored); simpl; by rewrite ?E.
Qed.

Lemma loadStoredLeads_parsed st stored l :
  leadsData st = Some stored -> truthy stored = true ->
  JSON_parse stored = ParsedLeads l ->
  leads (final (loadStoredLeads st)) = l.
Proof.
  intros E T P. rewrite loadStoredLeads_run. by rewrite E, T, P.
Qed.

Lemma first_page (view : list record) :
  slice view ((1 - 1) * 10) ((1 - 1) * 10 + 10) = take 10 view.
Proof.
  change (slice view ((1 - 1) * 10) ((1 - 1) * 10 + 10))
    with (slice view 0 (0 + 10)).
  rewrite (slice_window view 0 10) by lia. rewrite drop_0.
  destruct (Z_le_gt_dec 10 (Z.of_nat (length view))).
  - by rewrite Z.min_l by lia.
  - rewrite Z.min_r by lia. rewrite Z.sub_0_r, Nat2Z.id.
    by rewrite !take_ge by lia.
Qed.

End StoreRuns.

(** X13. Building the manager over a store whose blob is absent, does
    not parse, parses to a value that is not iterable or parses to an
    array of leads does not throw.  The collection is the array of leads
    the blob holds, and empty in the other cases.  The manager starts
    with the whole collection as its View, on page 1 with pages of 10,
    the table shows the first ten leads of the collection, and the first
    stat card shows the size of the collection. *)
Theorem init_shows_the_collection `{Host} (blob : option jsstr) :
  (forall stored, blob = Some stored -> truthy stored = true ->
     followed (JSON_parse stored)) ->
  let st := final (init (fresh blob)) in
  outcome (init (fresh blob)) = Normal tt
  /\ leads st
     = match blob with
       | Some stored =>
           if truthy stored then
             match JSON_parse stored with
             | ParsedLeads l => l
             | _ => []
             end
           else []
       | None => []
       end
  /\ filteredLeads st = leads st
  /\ currentPage st = 1
  /\ pageSize st = 10
  /\ rows (page st) = take 10 (leads st)
  /\ total (page st) = Z.of_nat (length (leads st))
  /\ totalLeads (updateStats st) = length (leads st).
Proof.
  intros Hblob st. unfold st. rewrite (init_run blob Hblob).
  unfold final at 1 2 3 4 5 6 7 8 9 10 11. simpl.
  pose proof (loadStoredLeads_view (fresh blob) eq_refl) as V.
  destruct (loadStoredLeads_frame (fresh blob)) as (P & S & _).
  split; [done | split]; [| repeat split; try done].
  - rewrite loadStoredLeads_run. simpl.
    destruct blob as [stored|]; [| done].
    destruct (truthy stored); [| done].
    by destruct (JSON_parse stored).
  - unfold pageLeads. rewrite P, S, V. apply first_page.
  - by rewrite V.
Qed.

(** A store that holds twelve leads, and a store that holds text that is
    not JSON. *)
Lemma init_shows_the_collection_witness :
  let lead := [(str "ID", str "7")] in
  let full := Some (Sample.stringify (repeat lead 12)) in
  let st := final (init (H := Json.host) (fresh full)) in
  let broken := final (init (H := Json.host) (fresh (Some (str "{broken")))) in
  (leads st = repeat lead 12
   /\ rows (page st) = repeat lead 10
   /\ showing (page st) = (1, 10)
   /\ total (page st) = 12)
  /\ leads broken = [] /\ rows (page broken) = [].
Proof.
  intros lead full st broken. split.
  - destruct (init_shows_the_collection (H := Json.host) full)
      as (_ & _ & _ & _ & _ & R & T & _).
    + intros stored [= <-] _. by vm_compute.
    + fold st in R, T. split; [reflexivity | split; [| split]].
      * rewrite R. reflexivity.
      * reflexivity.
      * rewrite T. reflexivity.
  - destruct (init_shows_the_collection (H := Json.host)
                (Some (str "{broken"))) as (_ & _ & _ & _ & _ & R & _).
    + intros stored [= <-] _. by vm_compute.
    + fold broken in R. split; [reflexivity |]. rewrite R. reflexivity.
Defined.

(** X14. What [saveLeads] stores, a manager built afterwards loads back:
    if the store accepts the text, and the text is one [JSON.parse] reads
    back as the collection, the new manager has the collection that was
    saved, as its collection and as its View. *)
Theorem saved_leads_load_back `{Host} (st : state) :
  setItem_accepts (JSON_stringify (leads st)) = true ->
  truthy (JSON_stringify (leads st)) = true ->
  JSON_parse (JSON_stringify (leads st)) = ParsedLeads (leads st) ->
  let stored := leadsData (final (saveLeads st)) in
  let st' := final (init (fresh stored)) in
  stored = Some (JSON_stringify (leads st))
  /\ leads st' = leads st
  /\ filteredLeads st' = leads st.
Proof.
  intros A T P stored st'.
  assert (E : stored = Some (JSON_stringify (leads st))).
  { unfold stored. rewrite saveLeads_run. unfold final. simpl. by rewrite A. }
  assert (Hblob : absent_or_leads stored).
  { intros text Et _. rewrite E in Et. injection Et as <-. by rewrite P. }
  assert (L : leads st' = leads st).
  { unfold st'. rewrite (init_run stored Hblob), E. unfold final at 1. simpl.
    by apply (loadStoredLeads_parsed _ (JSON_stringify (leads st))). }
  split; [done | split; [done |]]. rewrite <- L.
  unfold st'. rewrite (init_run stored Hblob). unfold final at 1 3. simpl.
  by apply loadStoredLeads_view.
Qed.

Lemma saved_leads_load_back_witness :
  let ann := [(str "ID", str "1"); (str "Lead Name", str "Lee, Ann")] in
  let bob := [(str "ID", str "2"); (str "Lead Name", str "Bob")] in
  let st := State [ann; bob] [bob] 1 10 [] asc None (Display [] (0, 0) 0) in
  let stored := leadsData (final (saveLeads (H := Json.host) st)) in
  leads (final (init (H := Json.host) (fresh stored))) = [ann; bob].
Proof.
  intros ann bob st stored.
  destruct (saved_leads_load_back (H := Json.host) st) as (_ & L & _);
    [reflexivity .. |].
  exact L.
Defined.

(** ** Query engine: when the filter throws *)

Lemma filterLeads_throws_run `{Host} c st lead :
  truthy (orEmpty (filter_date c)) = true ->
  In lead (leads st) ->
  get (str "Created") lead = None ->
  filterLeads c st = (Throw TypeError, st).
Proof.
  intros D I C. rewrite filterLeads_run.
  destruct (filterE_Throw (keeps c) (leads st) lead TypeError (keeps_inside c)
              I (keeps_without_Created c lead D C)) as [e E].
  rewrite E. by rewrite (filterE_keeps_TypeError _ _ _ E).
Qed.

(** ** Record store: [deleteLead] again *)

Lemma deleteLead_leads `{Host} c id st :
  leads (final (deleteLead c true id st))
  = List.filter (differentID id) (leads st).
Proof. by rewrite deleteLead_run, filterLeads_leads, saveLeads_leads. Qed.

Lemma filter_fixed {A} (p : A -> bool) (l : list A) :
  List.filter p l = l <-> Forall (fun x => p x = true) l.
Proof.
  split.
  - intros E. apply List.Forall_forall. intros x Hx. rewrite <- E in Hx.
    by apply filter_In in Hx as [_ ?].
  - intros Hall. apply filter_all. by apply List.Forall_forall.
Qed.

(** X15. After a confirmed [deleteLead(id)] no lead of the collection
    has that [ID]; deleting the same [ID] again changes nothing; and a
    delete leaves the collection as it was exactly when no lead had the
    [ID]. *)
Theorem deleteLead_twice `{Host} (c c' : controls) (id : option jsstr)
    (st : state) :
  let st1 := final (deleteLead c true id st) in
  Forall (fun lead => get (str "ID") lead <> id) (leads st1)
  /\ leads (final (deleteLead c' true id st1)) = leads st1
  /\ (leads st1 = leads st
      <-> Forall (fun lead => get (str "ID") lead <> id) (leads st)).
Proof.
  intros st1.
  assert (D : forall lead,
             differentID id lead = true <-> get (str "ID") lead <> id).
  { intros lead. unfold differentID.
    by rewrite negb_true_iff, bool_decide_eq_false. }
  assert (F : Forall (fun lead => get (str "ID") lead <> id) (leads st1)).
  { unfold st1. rewrite deleteLead_leads. apply List.Forall_forall.
    intros lead Hl. apply filter_In in Hl as [_ Hl]. by apply D. }
  split; [exact F | split].
  - rewrite deleteLead_leads. apply filter_fixed.
    eapply Forall_impl; [exact F |]. intros lead. apply D.
  - unfold st1. rewrite deleteLead_leads, filter_fixed.
    split; intros Hall; (eapply Forall_impl; [exact Hall |]);
      intros lead; apply D.
Qed.

(** X16. [deleteLead] does not catch what the filter throws: when a date
    is chosen and a lead that stays in the collection has no [Created]
    field, the confirmed delete throws a TypeError after it has removed
    the leads and stored the accepted blob; the View and the page are
    left as they were, so a deleted lead that was shown is still shown. *)
Theorem deleteLead_throws_after_deleting `{Host} (c : controls)
    (id : option jsstr) (st : state) (lead : record) :
  truthy (orEmpty (filter_date c)) = true ->
  In lead (leads st) ->
  get (str "ID") lead <> id ->
  get (str "Created") lead = None ->
  let r := deleteLead c true id st in
  let remaining := List.filter (differentID id) (leads st) in
  outcome r = Throw TypeError
  /\ leads (final r) = remaining
  /\ (setItem_accepts (JSON_stringify remaining) = true ->
      leadsData (final r) = Some (JSON_stringify remaining))
  /\ filteredLeads (final r) = filteredLeads st
  /\ page (final r) = page st.
Proof.
  intros D Hin Hid Hc r remaining. unfold r. rewrite deleteLead_run.
  fold remaining.
  rewrite (filterLeads_throws_run c _ lead D); [| | done].
  - rewrite saveLeads_run. unfold final, outcome. simpl.
    repeat split; try (by destruct (setItem_accepts _));
      intros A; by rewrite A.
  - rewrite saveLeads_leads. simpl. apply filter_In. split; [done |].
    unfold differentID. by rewrite negb_true_iff, bool_decide_eq_false.
Qed.

Lemma deleteLead_throws_after_deleting_witness :
  let ann := [(str "ID", str "1"); (str "Created", str "15/01/2024")] in
  let bob := [(str "ID", str "2")] in
  let c := Controls None None None None (Some (str "2024-01-15")) in
  let st := State [ann; bob] [ann] 1 10 [] asc None
                  (Display [ann] (1, 1) 1) in
  let r := deleteLead (H := Sample.host) c true (Some (str "1")) st in
  outcome r = Throw TypeError
  /\ leads (final r) = [bob]
  /\ filteredLeads (final r) = [ann].
Proof.
  intros ann bob c st r.
  destruct (deleteLead_throws_after_deleting (H := Sample.host) c
              (Some (str "1")) st bob) as (O & L & _ & V & _).
  - reflexivity.
  - right. by left.
  - discriminate.
  - reflexivity.
  - split; [exact O | split; [exact L | exact V]].
Defined.

(** ** Query engine: what a sort keeps *)

Lemma sortTable_frame `{Host} column st :
  leads (sortTable column st) = leads st
  /\ leadsData (sortTable column st) = leadsData st
  /\ pageSize (sortTable column st) = pageSize st.
Proof.
  unfold sortTable.
  destruct (decide (sortColumn st = column));
    by destruct (columnMap column).
Qed.

Lemma sortTable_permutes `{Host} column st :
  Permutation (filteredLeads st) (filteredLeads (sortTable column st)).
Proof.
  destruct (columnMap column) as [actualColumn|] eqn:E.
  - rewrite (sortTable_filteredLeads _ _ _ E). apply sort_perm.
  - by rewrite sortTable_unknown.
Qed.

(** X17. Whatever the column key and whatever the leads hold (dates that
    do not parse included), a sort only rearranges the View: the new View
    has exactly the leads of the old one, as many times; the collection,
    the stored blob, the page size and the page number are untouched. *)
Theorem sortTable_only_rearranges `{Host} (column : jsstr) (st : state) :
  let st' := sortTable column st in
  Permutation (filteredLeads st) (filteredLeads st')
  /\ length (filteredLeads st') = length (filteredLeads st)
  /\ leads st' = leads st
  /\ leadsData st' = leadsData st
  /\ pageSize st' = pageSize st
  /\ currentPage st' = currentPage st.
Proof.
  intros st'. destruct (sortTable_frame column st) as (L & D & S).
  pose proof (sortTable_permutes column st) as P.
  repeat split; try done.
  - symmetry. by apply Permutation_length.
  - apply sortTable_currentPage.
Qed.

Lemma StronglySorted_filter {A} (R : A -> A -> Prop) (p : A -> bool) l :
  StronglySorted R l -> StronglySorted R (List.filter p l).
Proof.
  induction 1 as [|x l S IH F]; simpl; [constructor |].
  destruct (p x); [| done]. constructor; [done |].
  apply List.Forall_forall. intros y Hy. apply filter_In in Hy as [Hy _].
  rewrite List.Forall_forall in F. by apply F.
Qed.

(** X18. Sorting by one column and then by another breaks the ties of the
    second by the first: in the View after the two sorts, the leads that
    compare equal to a given lead in the second column stand in the order
    the first sort gave them (provided the dates parse where a column is
    a date column).  This is how a two-level sort is obtained. *)
Theorem sortTable_breaks_ties_by_previous_sort `{Host} (st : state)
    (first second firstColumn secondColumn : jsstr) (x : record) :
  columnMap first = Some firstColumn ->
  columnMap second = Some secondColumn ->
  first <> second ->
  datesParse firstColumn (filteredLeads st) ->
  datesParse secondColumn (filteredLeads st) ->
  In x (filteredLeads st) ->
  let st1 := sortTable first st in
  let st2 := sortTable second st1 in
  sortDirection st2 = asc
  /\ StronglySorted
       (fun a b => compareLeads firstColumn (sortDirection st1) a b <= 0)
       (List.filter (fun y => compareLeads secondColumn asc x y =? 0)
          (filteredLeads st2)).
Proof.
  intros E1 E2 Hne D1 D2 Hx st1 st2.
  assert (Dir : sortDirection st2 = asc).
  { unfold st2. rewrite sortTable_sortDirection. unfold st1.
    rewrite sortTable_sortColumn. by destruct (decide (first = second)). }
  split; [exact Dir |].
  pose proof (sortTable_permutes first st) as P1. fold st1 in P1.
  assert (S1 : StronglySorted
                 (fun a b => compareLeads firstColumn (sortDirection st1) a b <= 0)
                 (filteredLeads st1)).
  { unfold st1 at 2. rewrite (sortTable_filteredLeads _ _ _ E1). fold st1.
    apply (sort_compareLeads_stable firstColumn (sortDirection st1)).
    by apply datesParse_sortable. }
  assert (Stable : stableSortOf (compareLeads secondColumn asc)
                     (filteredLeads st1) (filteredLeads st2)).
  { unfold st2. rewrite (sortTable_filteredLeads _ _ _ E2). fold st2.
    rewrite Dir. apply sort_compareLeads_stable.
    apply (Permutation_Forall P1). by apply datesParse_sortable. }
  destruct Stable as (_ & _ & Stable). rewrite Stable.
  - by apply StronglySorted_filter.
  - by apply (Permutation_in _ P1).
Qed.

Lemma sortTable_breaks_ties_by_previous_sort_witness :
  let lead (id stage : string) : record :=
    [(str "ID", str id); (str "Stage", str stage)] in
  let view := [lead "3" "NEW"; lead "1" "IDLE"; lead "2" "NEW";
               lead "4" "IDLE"]%string in
  let st := State view view 1 10 [] asc None (Display [] (0, 0) 0) in
  let st2 := sortTable (H := Sample.host) (str "sort-stage")
               (sortTable (H := Sample.host) (str "sort-id") st) in
  filteredLeads st2
  = [lead "1" "IDLE"; lead "4" "IDLE"; lead "2" "NEW"; lead "3" "NEW"]%string
  /\ StronglySorted
       (fun a b => compareLeads (H := Sample.host) (str "ID") asc a b <= 0)
       (List.filter
          (fun y => compareLeads (H := Sample.host) (str "Stage") asc
                      (lead "3" "NEW")%string y =? 0)
          (filteredLeads st2)).
Proof.
  intros lead view st st2. split; [reflexivity |].
  destruct (sortTable_breaks_ties_by_previous_sort (H := Sample.host) st
              (str "sort-id") (str "sort-stage") (str "ID") (str "Stage")
              (lead "3" "NEW")%string) as [_ S];
    [reflexivity | reflexivity | discriminate | discriminate | discriminate
     | by left |].
  exact S.
Defined.

(** ** Pager: the pages together *)

Lemma slice_page {A} (l : list A) (start size : Z) :
  0 <= start -> 0 <= size ->
  slice l start (start + size)
  = take (Z.to_nat size) (drop (Z.to_nat start) l).
Proof.
  intros Hs Hz. rewrite slice_window by done.
  destruct (Z_le_gt_dec (start + size) (Z.of_nat (length l))).
  - rewrite Z.min_l by lia. f_equal. lia.
  - rewrite Z.min_r by lia.
    destruct (Z_le_gt_dec start (Z.of_nat (length l))).
    + rewrite !take_ge; [done | |]; rewrite length_drop; lia.
    + rewrite drop_ge by lia. by rewrite !take_nil.
Qed.

Lemma pagesUpTo_take st k :
  1 <= pageSize st ->
  pagesUpTo st k = take (k * Z.to_nat (pageSize st)) (filteredLeads st).
Proof.
  intros Hs. unfold pagesUpTo. induction k as [|k IH].
  - done.
  - rewrite seq_S, map_app, concat_app, IH. simpl.
    rewrite app_nil_r. unfold pageLeads. simpl.
    rewrite slice_page by nia.
    replace (Z.to_nat ((Z.of_nat (S k) - 1) * pageSize st))
      with (k * Z.to_nat (pageSize st))%nat by nia.
    rewrite take_take_drop. f_equal. lia.
Qed.

(** X19. For a page size of at least 1 the pages cut the View into
    consecutive pieces: the rows of the pages 1 to [k], one after the
    other, are the first [k] times [pageSize] leads of the View, and the
    pages up to the last one give the whole View, each lead once. *)
Theorem pages_cover_the_view (st : state) (k : nat) :
  1 <= pageSize st ->
  let view := filteredLeads st in
  let pageCount :=
    Z.to_nat ((Z.of_nat (length view) + pageSize st - 1) / pageSize st) in
  pagesUpTo st k = take (k * Z.to_nat (pageSize st)) view
  /\ pagesUpTo st pageCount = view.
Proof.
  intros Hs view pageCount. split; [by apply pagesUpTo_take |].
  rewrite pagesUpTo_take by done. apply take_ge. fold view.
  assert (Z.of_nat (length view)
          <= Z.of_nat pageCount * pageSize st); [| nia].
  unfold pageCount. rewrite Z2Nat.id by (apply Z.div_pos; lia).
  pose proof (Z.mul_succ_div_gt (Z.of_nat (length view) + pageSize st - 1)
                (pageSize st)). nia.
Qed.

Lemma pages_cover_the_view_witness :
  let lead (id : string) : record := [(str "ID", str id)] in
  let view := [lead "1"; lead "2"; lead "3"; lead "4"; lead "5"]%string in
  let st := State view view 1 2 [] asc None (Display [] (0, 0) 0) in
  pagesUpTo st 2 = [lead "1"; lead "2"; lead "3"; lead "4"]%string
  /\ pagesUpTo st 3 = view.
Proof.
  intros lead view st.
  destruct (pages_cover_the_view st 2) as [T _]; [simpl; lia |].
  destruct (pages_cover_the_view st 3) as [_ W]; [simpl; lia |].
  split; [exact T | exact W].
Defined.

(** ** Stats *)

Lemma countStage_app stage l k :
  countStage stage (l ++ k) = (countStage stage l + countStage stage k)%nat.
Proof. unfold countStage. by rewrite List.filter_app, length_app. Qed.

Lemma stage_counts_bound l :
  (countStage (str "NEW") l + countStage (str "ATTEMPT") l
   + countStage (str "CUSTOMER") l <= length l)%nat.
Proof.
  induction l as [|lead l IH]; [done |].
  change (lead :: l) with ([lead] ++ l).
  rewrite !countStage_app, length_app.
  assert (countStage (str "NEW") [lead] + countStage (str "ATTEMPT") [lead]
          + countStage (str "CUSTOMER") [lead] <= length [lead])%nat; [| lia].
  unfold countStage. simpl.
  repeat case_bool_decide; simpl; try lia; exfalso;
    match goal with
    | H1 : ?x = Some ?a, H2 : ?x = Some ?b |- _ =>
        rewrite H1 in H2; vm_compute in H2; discriminate H2
    end.
Qed.

(** X20. The stat cards count the collection, not the View: the cards of
    the three stages never add up to more than the total, and a filter
    or a sort changes none of the four numbers. *)
Theorem updateStats_counts_the_collection `{Host} (c : controls)
    (column : jsstr) (st : state) :
  (newLeads (updateStats st) + attemptLeads (updateStats st)
   + customerLeads (updateStats st) <= totalLeads (updateStats st))%nat
  /\ updateStats (final (filterLeads c st)) = updateStats st
  /\ updateStats (sortTable column st) = updateStats st.
Proof.
  split; [apply stage_counts_bound | split].
  - unfold updateStats. by rewrite filterLeads_leads.
  - unfold updateStats. by destruct (sortTable_frame column st) as (-> & _).
Qed.

(** ** Markup *)

Lemma escapeChar_safe c x :
  In x (escapeChar c) -> x <> 60%N /\ x <> 62%N /\ x <> 160%N.
Proof.
  unfold escapeChar.
  destruct (N.eqb_spec c 38); [| destruct (N.eqb_spec c 160);
    [| destruct (N.eqb_spec c 60); [| destruct (N.eqb_spec c 62)]]];
    simpl; intros Hx;
    repeat (destruct Hx as [<- | Hx]; [by repeat split |]); done.
Qed.

(** X21. The text [escapeHtml] returns holds no angle bracket and no
    no-break space, whatever the text given; and a text without
    ampersand, angle bracket and no-break space is returned as it is. *)
Theorem escapeHtml_leaves_no_markup (text : jsstr) :
  Forall (fun x => x <> 60%N /\ x <> 62%N /\ x <> 160%N) (escapeHtml text)
  /\ (escapeHtml text = text
      <-> Forall (fun c => c <> 38%N /\ c <> 60%N /\ c <> 62%N /\ c <> 160%N)
                 text).
Proof.
  split.
  - apply List.Forall_forall. intros x Hx. unfold escapeHtml in Hx.
    apply in_flat_map in Hx as (c & _ & Hx). by apply escapeChar_safe in Hx.
  - split.
    + intros E.
      assert (Hlen : forall t, (length t <= length (escapeHtml t))%nat).
      { induction t as [|c t IH]; [done |]. unfold escapeHtml. simpl.
        rewrite length_app. fold (escapeHtml t).
        assert (1 <= length (escapeChar c))%nat; [| simpl; lia].
        unfold escapeChar. by repeat (destruct (_ =? _)%N; [simpl; lia |]). }
      induction text as [|c text IH]; [constructor |].
      unfold escapeHtml in E. simpl in E. fold (escapeHtml text) in E.
      unfold escapeChar in E.
      destruct (N.eqb_spec c 38);
        [apply (f_equal (@length N)) in E; simpl in E;
         pose proof (Hlen text); lia |].
      destruct (N.eqb_spec c 160);
        [apply (f_equal (@length N)) in E; simpl in E;
         pose proof (Hlen text); lia |].
      destruct (N.eqb_spec c 60);
        [apply (f_equal (@length N)) in E; simpl in E;
         pose proof (Hlen text); lia |].
      destruct (N.eqb_spec c 62);
        [apply (f_equal (@length N)) in E; simpl in E;
         pose proof (Hlen text); lia |].
      simpl in E. injection E as E. constructor; [done | by apply IH].
    + intros Hall. induction Hall as [|c text (H1 & H2 & H3 & H4) _ IH];
        [done |].
      unfold escapeHtml. simpl. fold (escapeHtml text). rewrite IH.
      unfold escapeChar.
      destruct (N.eqb_spec c 38); [done |].
      destruct (N.eqb_spec c 160); [done |].
      destruct (N.eqb_spec c 60); [done |].
      by destruct (N.eqb_spec c 62).
Qed.

(** ** Upload, preview and import *)

Lemma first_rows {A} (l : list A) : slice l 0 5 = take 5 l.
Proof.
  change (slice l 0 5) with (slice l 0 (0 + 5)).
  rewrite slice_page by lia. by rewrite drop_0.
Qed.

(** X22. A chosen file is staged whole and imported whole: the preview
    gets the first five records [parseCSV] reads, and, if the staged
    text is one [JSON.parse] reads back as these records and no date is
    chosen, an import without [skipDuplicates] appends all of them to the
    collection, in order, and reports them all as imported. *)
Theorem upload_then_import `{Host} (c : controls) (csv : jsstr)
    (st : state) :
  let parsedRows := parseCSV csv in
  truthy (JSON_stringify parsedRows) = true ->
  JSON_parse (JSON_stringify parsedRows) = ParsedLeads parsedRows ->
  truthy (orEmpty (filter_date c)) = false ->
  exists s,
    handleFileUpload (Some csv) = Some s
    /\ previewRows s = take 5 parsedRows
    /\ let r := importLeads c (Some (fullData s)) false st in
       outcome r = Normal (Imported (Z.of_nat (length parsedRows)) 0)
       /\ leads (final r) = leads st ++ parsedRows.
Proof.
  intros parsedRows T P D. eexists. split; [reflexivity |].
  split; [apply first_rows |]. simpl fullData. fold parsedRows.
  rewrite (importLeads_run _ _ _ _ parsedRows T P). cbv zeta.
  rewrite filterE_passes by (by left).
  unfold importLoop. rewrite import_all. simpl. split; [done |].
  rewrite saveLeads_run. unfold final. simpl.
  by destruct (setItem_accepts _).
Qed.

Lemma upload_then_import_witness :
  let csv := str "ID,Stage" ++ [NEWLINE] ++ str "1,NEW" ++ [NEWLINE]
             ++ str "2" ++ [NEWLINE] ++ str "3,IDLE" in
  let c := Controls None None None None None in
  let old := [(str "ID", str "1")] in
  let st := State [old] [old] 1 10 [] asc None (Display [] (0, 0) 0) in
  let text := Sample.stringify (parseCSV csv) in
  let r := importLeads (H := Json.host) c (Some text) false st in
  outcome r = Normal (Imported 2 0)
  /\ leads (final r)
     = [old; [(str "ID", str "1"); (str "Stage", str "NEW")];
        [(str "ID", str "3"); (str "Stage", str "IDLE")]].
Proof.
  intros csv c old st text r.
  destruct (upload_then_import (H := Json.host) c csv st)
    as (s & E & _ & O & L); [reflexivity .. |].
  injection E as <-. split; [exact O | exact L].
Defined.

(** X23. The preview of an upload is the table whose column titles are
    the header names of the file other than [__proto__], the array
    indices first, written between the [th] tags as they are, and whose
    cells hold, for the first five records read and under each title, the
    value of the record passed through [escapeHtml]; this when the header
    names are distinct.  Nothing is written when no record was read. *)
Theorem showPreview_of_upload `{Host} (csv : jsstr) :
  let headers := headerNames (hd [] (nonBlankLines csv)) in
  let titles := propertyOrder (fieldNames headers) in
  NoDup headers ->
  match handleFileUpload (Some csv) with
  | Some s =>
      showPreview (previewRows s)
      = match parseCSV csv with
        | [] => None
        | _ :: _ =>
            Some (tableMarkup titles
                    (List.map
                       (fun row =>
                          List.map (fun h => escapeHtml (orEmpty (get h row)))
                            titles)
                       (take 5 (parseCSV csv))))
        end
  | None => False
  end.
Proof.
  intros headers titles Hnd. simpl. rewrite first_rows.
  pose proof (parseCSV_rows_shape csv Hnd) as Hshape.
  fold headers in Hshape.
  destruct (parseCSV csv) as [|first rest] eqn:E; [done |].
  assert (Hshape' : Forall (fun row => List.map fst row = fieldNames headers)
                      (take 5 (first :: rest))).
  { apply Forall_take. eapply Forall_impl; [exact Hshape |]. by intros r [? _]. }
  change (take 5 (first :: rest)) with (first :: take 4 rest) in *.
  unfold showPreview. cbv zeta.
  assert (Hfirst : keys first = titles).
  { apply Forall_cons_iff in Hshape' as [Hfirst _]. unfold keys.
    by rewrite Hfirst. }
  rewrite Hfirst. f_equal. f_equal. apply map_ext_in. intros r Hr.
  apply map_ext_in. intros h Hh. f_equal.
  rewrite List.Forall_forall in Hshape'.
  destruct (get_own h r) as [v Ev].
  { rewrite (Hshape' r Hr). by apply propertyOrder_In. }
  by rewrite (fieldText_own _ _ _ Ev), Ev, orEmpty_Some.
Qed.

(** A file with markup in a header name and in a value: the name is
    written as it is, the value escaped. *)
Lemma showPreview_of_upload_witness :
  let csv := str "ID,<i>" ++ [NEWLINE] ++ str "1,<b>" ++ [NEWLINE]
             ++ str "2" ++ [NEWLINE] ++ str "3,IDLE" in
  showPreview (H := Sample.host) (slice (parseCSV csv) 0 5)
  = Some (tableMarkup [str "ID"; str "<i>"]
            [[str "1"; str "&lt;b&gt;"]; [str "3"; str "IDLE"]]).
Proof.
  intros csv.
  pose proof (showPreview_of_upload (H := Sample.host) csv) as P.
  cbv zeta in P. simpl handleFileUpload in P. simpl previewRows in P.
  rewrite P; [reflexivity |].
  apply (bool_decide_unpack _). by vm_compute.
Defined.
